(** * lark-imagine-robot: session store, generation queue, encrypted LRU cache

    A shallow embedding of the three stateful services of the bot

    - [SessionManager]    (session/manager.ts)
    - [GenerationQueue]   (queue/generation-queue.ts)
    - [EncryptedLRUCache] (cache/encrypted-lru-cache.ts)

    together with the properties stated about them in the design document.

    Conventions.  JavaScript numbers that hold integers (counters, limits,
    millisecond timestamps) are [Z].  [Date.now()] and [crypto.randomBytes]
    are inputs of the operation that reads them.  Calls into collaborators
    that only produce an external effect ([larkMessageService.updateCard],
    [generationExecutor.execute]) are recorded in an effect list, in call
    order.  Console logging is not modelled. *)

From Stdlib Require Import ZArith Lia Strings.Byte.
From stdpp Require Import base option list strings pretty gmap fin_maps sorting.

Local Open Scope Z_scope.
Local Open Scope string_scope.
Local Open Scope list_scope.

(** ** session/manager.ts *)

Module SessionManager.

Inductive SessionStatus : Set :=
| waiting_confirm
| waiting_key
| generating
| done
| error.

Record Session : Set := mkSession {
  id : string;
  userId : string;
  chatId : string;
  messageId : string;
  cardMessageId : option string;
  textContent : string;
  imageKeys : list string;
  apiKey : option string;
  artStyle : option string;
  aspectRatio : option string;
  brightness : option string;
  colorTone : option string;
  detailLevel : option string;
  negativePrompt : option string;
  seed : option string;
  status : SessionStatus;
  createdAt : Z
}.

(** [SessionUpdates] is a [Partial<Pick<Session, ...>>]: every key may be
    missing from the object ([None]).  For the optional string members a
    key that is present may still carry [undefined] ([Some None]), which
    [Object.assign] copies like any other value. *)
Record SessionUpdates : Set := mkUpdates {
  u_cardMessageId : option (option string);
  u_apiKey : option (option string);
  u_status : option SessionStatus;
  u_artStyle : option (option string);
  u_aspectRatio : option (option string);
  u_brightness : option (option string);
  u_colorTone : option (option string);
  u_detailLevel : option (option string);
  u_negativePrompt : option (option string);
  u_seed : option (option string)
}.

(** One property copied by [Object.assign]: the source's value when the
    source has the key, the target's old value otherwise. *)
Definition assign_prop {A : Type} (source : option A) (target : A) : A :=
  match source with
  | Some v => v
  | None => target
  end.

(** [Object.assign(session, updates)] *)
Definition Object_assign (session : Session) (updates : SessionUpdates) : Session :=
  {| id := id session;
     userId := userId session;
     chatId := chatId session;
     messageId := messageId session;
     cardMessageId := assign_prop (u_cardMessageId updates) (cardMessageId session);
     textContent := textContent session;
     imageKeys := imageKeys session;
     apiKey := assign_prop (u_apiKey updates) (apiKey session);
     artStyle := assign_prop (u_artStyle updates) (artStyle session);
     aspectRatio := assign_prop (u_aspectRatio updates) (aspectRatio session);
     brightness := assign_prop (u_brightness updates) (brightness session);
     colorTone := assign_prop (u_colorTone updates) (colorTone session);
     detailLevel := assign_prop (u_detailLevel updates) (detailLevel session);
     negativePrompt := assign_prop (u_negativePrompt updates) (negativePrompt session);
     seed := assign_prop (u_seed updates) (seed session);
     status := assign_prop (u_status updates) (status session);
     createdAt := createdAt session |}.

(** The [sessions] map of the manager. *)
Abbreviation Sessions := (gmap string Session).

Record CreateParams : Set := mkParams {
  p_userId : string;
  p_chatId : string;
  p_messageId : string;
  p_textContent : string;
  p_imageKeys : list string
}.

(** [create(params)]; [newId] is the value of [generateId()] and [now] the
    value of [Date.now()]. *)
Definition create (newId : string) (now : Z) (params : CreateParams)
    (sessions : Sessions) : Session * Sessions :=
  let session :=
    {| id := newId;
       userId := p_userId params;
       chatId := p_chatId params;
       messageId := p_messageId params;
       cardMessageId := None;
       textContent := p_textContent params;
       imageKeys := p_imageKeys params;
       apiKey := None;
       artStyle := None; aspectRatio := None; brightness := None;
       colorTone := None; detailLevel := None; negativePrompt := None;
       seed := None;
       status := waiting_confirm;
       createdAt := now |} in
  (session, <[id session := session]> sessions).

(** [get(id)] *)
Definition get (id : string) (sessions : Sessions) : option Session :=
  sessions !! id.

(** [update(id, updates)]: the value returned ([None] is [undefined]) and
    the store afterwards.  The session object is mutated in place, so the
    store holds the merged record under the same key. *)
Definition update (id : string) (updates : SessionUpdates)
    (sessions : Sessions) : option Session * Sessions :=
  match sessions !! id with
  | None => (None, sessions)
  | Some session =>
      let session' := Object_assign session updates in
      (Some session', <[id := session']> sessions)
  end.

(** The body of the [startCleanup] timer callback at time [now]. *)
Definition ttlMs : Z := 30 * 60 * 1000.

Definition cleanup (now : Z) (sessions : Sessions) : Sessions :=
  filter (fun kv => ¬ (now - createdAt kv.2 > ttlMs)) sessions.

(** A session and an update, to try [update] on. *)
Definition demoSession : Session :=
  mkSession "s_1" "ou_1" "oc_1" "om_1" (Some "om_card") "a red fox" []
    None None None None None None None None waiting_confirm 1000.

Definition demoUpdates : SessionUpdates :=
  mkUpdates None (Some (Some "sk-1")) (Some generating)
    None None None None None None None.

End SessionManager.

(** ** queue/generation-queue.ts *)

Module GenerationQueue.

Import SessionManager.

(** The [ImageGenerationService] handed to [enqueue] is an object with a
    single [generate] method; the queue only stores it and passes it on, so
    it is a handle here. *)
Inductive ImageGenerationService : Set :=
| ServiceHandle (n : nat).

Record QueueItem : Set := mkItem {
  sessionId : string;
  service : ImageGenerationService;
  enqueuedAt : Z
}.

Inductive EnqueueResult : Set :=
| Accepted (position : Z)
| Rejected (reason : string).

(** The cards built by [buildProgressCard] and [buildQueueCard]
    (cards/templates.ts), kept as the builder applied to its arguments. *)
Inductive Card : Set :=
| ProgressCard (promptSummary : string)
| QueueCard (promptSummary : string) (position totalWaiting : Z).

Inductive Effect : Set :=
| UpdateCard (cardMessageId : string) (card : Card)
| Execute (sessionId : string) (service : ImageGenerationService).

Record State : Set := mkState {
  maxConcurrency : Z;
  maxQueueLength : Z;
  running : Z;
  waiting : list QueueItem
}.

(** [new GenerationQueue()] with the two limits read from [config.queue]. *)
Definition init (maxC maxQ : Z) : State :=
  {| maxConcurrency := maxC; maxQueueLength := maxQ; running := 0; waiting := [] |}.

Definition set_running (q : State) (r : Z) : State :=
  {| maxConcurrency := maxConcurrency q; maxQueueLength := maxQueueLength q;
     running := r; waiting := waiting q |}.

Definition set_waiting (q : State) (w : list QueueItem) : State :=
  {| maxConcurrency := maxConcurrency q; maxQueueLength := maxQueueLength q;
     running := running q; waiting := w |}.

(** [session.textContent || '(仅图片输入)'] *)
Definition promptSummaryOf (session : Session) : string :=
  if decide (textContent session = "") then "(仅图片输入)" else textContent session.

(** The guard [if (!session?.cardMessageId)]: the card id when the session
    exists and its [cardMessageId] is a non-empty string. *)
Definition cardOf (sessions : Sessions) (sessionId : string) : option (string * Session) :=
  match SessionManager.get sessionId sessions with
  | None => None
  | Some session =>
      match cardMessageId session with
      | None => None
      | Some cid => if decide (cid = "") then None else Some (cid, session)
      end
  end.

(** [updateToProgress(sessionId)] *)
Definition updateToProgress (sessions : Sessions) (sessionId : string) : list Effect :=
  match cardOf sessions sessionId with
  | None => []
  | Some (cid, session) => [UpdateCard cid (ProgressCard (promptSummaryOf session))]
  end.

(** [run(item)], up to the point where the promise of [execute] is created.
    What the executor does with the job (its own card updates, the status
    of the session) is behind the single [Execute] effect.  The [finally]
    callback of the promise is [complete] below. *)
Definition run (sessions : Sessions) (item : QueueItem) (q : State) : State * list Effect :=
  (set_running q (running q + 1),
   updateToProgress sessions (sessionId item) ++ [Execute (sessionId item) (service item)]).

(** The [for] loop of [notifyQueuePositions], from index [i] on; [total] is
    [this.waiting.length]. *)
Fixpoint notifyLoop (sessions : Sessions) (total i : Z) (items : list QueueItem) : list Effect :=
  match items with
  | [] => []
  | item :: items' =>
      match cardOf sessions (sessionId item) with
      | None => []
      | Some (cid, session) =>
          [UpdateCard cid (QueueCard (promptSummaryOf session) (i + 1) total)]
      end ++ notifyLoop sessions total (i + 1) items'
  end.

Definition notifyQueuePositions (sessions : Sessions) (q : State) : list Effect :=
  notifyLoop sessions (Z.of_nat (length (waiting q))) 0 (waiting q).

(** The [while] loop of [processNext]; [w] is [this.waiting], which shrinks
    by one on every iteration. *)
Fixpoint processNextLoop (sessions : Sessions) (q : State) (w : list QueueItem)
    : State * list Effect :=
  match w with
  | [] => (set_waiting q [], [])
  | next :: rest =>
      if decide (running q < maxConcurrency q) then
        let '(q1, e1) := run sessions next (set_waiting q rest) in
        let e2 := notifyQueuePositions sessions q1 in
        let '(q2, e3) := processNextLoop sessions q1 rest in
        (q2, e1 ++ e2 ++ e3)
      else (set_waiting q w, [])
  end.

Definition processNext (sessions : Sessions) (q : State) : State * list Effect :=
  processNextLoop sessions q (waiting q).

(** The [finally] callback installed by [run]: one job has finished. *)
Definition complete (sessions : Sessions) (q : State) : State * list Effect :=
  processNext sessions (set_running q (running q - 1)).

(** The rejection text
    [`当前排队人数已达上限 (${this.maxQueueLength})，请稍后再试`]. *)
Definition queueFullReason (maxQ : Z) : string :=
  "当前排队人数已达上限 (" +:+ pretty maxQ +:+ ")，请稍后再试".

(** [enqueue(sessionId, service)]; [now] is [Date.now()]. *)
Definition enqueue (sessions : Sessions) (sessionId : string)
    (service : ImageGenerationService) (now : Z) (q : State)
    : EnqueueResult * State * list Effect :=
  if decide (running q < maxConcurrency q ∧ length (waiting q) = 0%nat) then
    let '(q', e) := run sessions (mkItem sessionId service now) q in
    (Accepted 0, q', e)
  else if decide (Z.of_nat (length (waiting q)) >= maxQueueLength q) then
    (Rejected (queueFullReason (maxQueueLength q)), q, [])
  else
    let item := mkItem sessionId service now in
    let q' := set_waiting q (waiting q ++ [item]) in
    (Accepted (Z.of_nat (length (waiting q'))), q', []).

(** *** Histories of the queue

    The queue is driven by two kinds of events: a call of [enqueue], and the
    [finally] callback of a job started earlier.  Each event sees the session
    store as it is at that moment. *)

Inductive Event : Set :=
| EvEnqueue (sessionId : string) (service : ImageGenerationService) (now : Z)
| EvComplete.

(** A job as the executor sees it. *)
Definition Job : Set := string * ImageGenerationService.

Definition job (item : QueueItem) : Job := (sessionId item, service item).

(** The jobs handed to [generationExecutor.execute] by a list of effects. *)
Fixpoint executed (effects : list Effect) : list Job :=
  match effects with
  | [] => []
  | Execute sid svc :: effects' => (sid, svc) :: executed effects'
  | UpdateCard _ _ :: effects' => executed effects'
  end.

(** The queue together with two logs kept for the statements below: the
    jobs that [enqueue] put on the wait list (answered with a position other
    than 0), and the jobs that completions took from it, both in order. *)
Record History : Set := mkHistory {
  state : State;
  queuedLog : list Job;
  dispatchedLog : list Job
}.

Definition start (maxC maxQ : Z) : History :=
  {| state := init maxC maxQ; queuedLog := []; dispatchedLog := [] |}.

Definition queuedBy (sessionId : string) (service : ImageGenerationService)
    (result : EnqueueResult) : list Job :=
  match result with
  | Accepted position => if decide (position = 0) then [] else [(sessionId, service)]
  | Rejected _ => []
  end.

Definition step (input : Sessions * Event) (h : History) : History :=
  match input with
  | (sessions, EvEnqueue sid svc now) =>
      let '(result, q', _) := enqueue sessions sid svc now (state h) in
      {| state := q';
         queuedLog := queuedLog h ++ queuedBy sid svc result;
         dispatchedLog := dispatchedLog h |}
  | (sessions, EvComplete) =>
      let '(q', effects) := complete sessions (state h) in
      {| state := q';
         queuedLog := queuedLog h;
         dispatchedLog := dispatchedLog h ++ executed effects |}
  end.

Fixpoint exec (trace : list (Sessions * Event)) (h : History) : History :=
  match trace with
  | [] => h
  | input :: trace' => exec trace' (step input h)
  end.

(** The 1-indexed position of the waiter at index [i] of the wait list. *)
Definition positionAt (i : nat) : Z := Z.of_nat i + 1.

(** The card update a waiter gets when told [position] and [total]; none
    when its session is gone or has no card. *)
Definition notification (sessions : Sessions) (position total : Z)
    (item : QueueItem) : list Effect :=
  match cardOf sessions (sessionId item) with
  | None => []
  | Some (cid, session) =>
      [UpdateCard cid (QueueCard (promptSummaryOf session) position total)]
  end.

(** What holds of every history that starts from a fresh queue with the
    limits [maxC] and [maxQ]: the limits stay, at most [maxC] jobs run, a
    job only waits when all slots are taken, and the wait list is what was
    queued minus what was dispatched, in order. *)
Record Inv (maxC maxQ : Z) (h : History) : Prop := mkInv {
  inv_maxConcurrency : maxConcurrency (state h) = maxC;
  inv_maxQueueLength : maxQueueLength (state h) = maxQ;
  inv_running : running (state h) <= maxC;
  inv_busy : waiting (state h) ≠ [] -> running (state h) = maxC;
  inv_fifo : dispatchedLog h ++ map job (waiting (state h)) = queuedLog h
}.

(** *** A small scenario

    One slot, two places on the wait list; four requests arrive, the first
    one runs. *)

Definition svc : ImageGenerationService := ServiceHandle 0.

Definition sessionWithCard (sid card text : string) : Session :=
  mkSession sid "ou_1" "oc_1" "om_1" (Some card) text []
    (Some "sk-1") None None None None None None None waiting_confirm 1000.

Definition fourSessions : Sessions :=
  <["s_a" := sessionWithCard "s_a" "card_a" "a red fox"]>
    (<["s_b" := sessionWithCard "s_b" "card_b" "a blue whale"]>
       (<["s_c" := sessionWithCard "s_c" "card_c" ""]>
          (<["s_d" := sessionWithCard "s_d" "card_d" "a green hill"]> ∅))).

Definition itemA : QueueItem := mkItem "s_a" svc 1.
Definition itemB : QueueItem := mkItem "s_b" svc 2.
Definition itemC : QueueItem := mkItem "s_c" svc 3.

Definition threeRequests : list (Sessions * Event) :=
  [(fourSessions, EvEnqueue "s_a" svc 1);
   (fourSessions, EvEnqueue "s_b" svc 2);
   (fourSessions, EvEnqueue "s_c" svc 3)].

Definition fourRequests : list (Sessions * Event) :=
  threeRequests ++ [(fourSessions, EvEnqueue "s_d" svc 4)].

(** The queue after the three accepted requests: A runs, B and C wait. *)
Definition busyQueue : State := mkState 1 2 1 [itemB; itemC].

End GenerationQueue.

(** ** cache/encrypted-lru-cache.ts *)

Module EncryptedLRUCache.

(** What a call hands back to its caller: a value, or a thrown exception. *)
Inductive Completion (A : Type) : Type :=
| Return (v : A)
| Throw (err : string).
Arguments Return {A} v.
Arguments Throw {A} err.

(** Sequencing inside a [try] block: the first exception ends the block. *)
Definition andThen {A B : Type} (m : Completion A) (k : A -> Completion B)
    : Completion B :=
  match m with
  | Return v => k v
  | Throw err => Throw err
  end.

Notation "x <- m ;; k" := (andThen m (fun x => k))
  (at level 100, m at next level, right associativity).

(** A node:buffer [Buffer]. *)
Definition Buffer : Set := list Byte.byte.

(** The parts of the JavaScript platform the cache is written against, for
    a cache of values of type [T]:
    - [sha256 s] is [crypto.createHash('sha256').update(s).digest()];
    - [aes256gcm_seal key iv plaintext] is the ciphertext and the tag that
      [createCipheriv('aes-256-gcm', key, iv)], [update(plaintext, 'utf8')],
      [final()] and [getAuthTag()] produce;
    - [aes256gcm_open key iv authTag ciphertext] is what
      [createDecipheriv('aes-256-gcm', key, iv)], [setAuthTag(authTag)],
      [update(ciphertext)] and [final('utf8')] produce, any of which may
      throw; the decipher is made without the [authTagLength] option;
    - [toHex b] is [b.toString('hex')], [fromHex s] is [Buffer.from(s, 'hex')];
    - [JSON_stringify] and [JSON_parse] are [JSON.stringify] and [JSON.parse];
      a value that [JSON.stringify] cannot turn into a string ends in an
      exception, in [stringify] itself or in [cipher.update] right after. *)
Class Platform (T : Type) : Type := {
  sha256 : string -> Buffer;
  aes256gcm_seal : Buffer -> Buffer -> string -> Buffer * Buffer;
  aes256gcm_open : Buffer -> Buffer -> Buffer -> Buffer -> Completion string;
  toHex : Buffer -> string;
  fromHex : string -> Buffer;
  JSON_stringify : T -> Completion string;
  JSON_parse : string -> Completion T
}.

Record CacheEntry : Set := mkEntry {
  ciphertext : string;
  iv : string;
  authTag : string;
  createdAt : Z;
  lastAccessedAt : Z
}.

Record LRUCacheOptions : Set := mkOptions {
  o_maxSize : Z;
  o_ttlMs : Z;
  o_encryptSecret : string
}.

(** A JavaScript [Map<string, CacheEntry>]: the entries in insertion order,
    one per key. *)
Definition EntryMap : Set := list (string * CacheEntry).

(** [map.get(key)] *)
Fixpoint Map_get (key : string) (m : EntryMap) : option CacheEntry :=
  match m with
  | [] => None
  | (k, e) :: m' => if decide (k = key) then Some e else Map_get key m'
  end.

(** [map.delete(key)]: no entry of [key] is left, the others keep their
    order. *)
Fixpoint Map_delete (key : string) (m : EntryMap) : EntryMap :=
  match m with
  | [] => []
  | (k, e) :: m' =>
      if decide (k = key) then Map_delete key m' else (k, e) :: Map_delete key m'
  end.

(** [map.set(key, entry)]: an existing key keeps its place, a new key goes
    to the end. *)
Fixpoint Map_set (key : string) (entry : CacheEntry) (m : EntryMap) : EntryMap :=
  match m with
  | [] => [(key, entry)]
  | (k, e) :: m' =>
      if decide (k = key) then (k, entry) :: m' else (k, e) :: Map_set key entry m'
  end.

(** [map.has(key)], also the boolean that [map.delete(key)] returns. *)
Definition Map_has (key : string) (m : EntryMap) : bool :=
  match Map_get key m with
  | Some _ => true
  | None => false
  end.

Definition keys (m : EntryMap) : list string := m.*1.

Record Cache : Set := mkCache {
  store : EntryMap;
  maxSize : Z;
  ttlMs : Z;
  encryptKey : Buffer
}.

Definition with_store (c : Cache) (m : EntryMap) : Cache :=
  {| store := m; maxSize := maxSize c; ttlMs := ttlMs c; encryptKey := encryptKey c |}.

(** The eviction loop of [set],
    [while (this.store.size >= this.maxSize) { delete the first key }].
    Deleting the first key of the map leaves its tail
    ([Map_delete_first] below).  On an empty map [oldestKey] is [undefined],
    nothing is deleted and the condition stays true: the loop does not
    terminate, which is [None]. *)
Fixpoint evict (maxSize : Z) (m : EntryMap) {struct m} : option EntryMap :=
  if decide (Z.of_nat (length m) >= maxSize) then
    match m with
    | [] => None
    | _ :: m' => evict maxSize m'
    end
  else Some m.

(** The expiry test [now - entry.createdAt > this.ttlMs]. *)
Definition expired (ttl now : Z) (kv : string * CacheEntry) : Prop :=
  now - createdAt kv.2 > ttl.

#[export] Instance expired_dec ttl now kv : Decision (expired ttl now kv).
Proof. unfold expired. apply _. Defined.

Section Operations.

Context {T : Type} {platform : Platform T}.

(** [new EncryptedLRUCache(options)] *)
Definition new (options : LRUCacheOptions) : Cache :=
  {| store := [];
     maxSize := o_maxSize options;
     ttlMs := o_ttlMs options;
     encryptKey := sha256 (o_encryptSecret options) |}.

(** [encrypt(plaintext)]; [nonce] is the value of [crypto.randomBytes(16)].
    The result is the first three members of a [CacheEntry]. *)
Definition encrypt (key : Buffer) (nonce : Buffer) (plaintext : string)
    : string * string * string :=
  let '(encrypted, tag) := aes256gcm_seal key nonce plaintext in
  (toHex encrypted, toHex nonce, toHex tag).

(** [decrypt(ciphertext, ivHex, authTagHex)] *)
Definition decrypt (key : Buffer) (ciphertext ivHex authTagHex : string)
    : Completion string :=
  let iv := fromHex ivHex in
  let authTag := fromHex authTagHex in
  aes256gcm_open key iv authTag (fromHex ciphertext).

(** [set(key, value)]; [nonce] is the value of [crypto.randomBytes(16)] and
    [now] of [Date.now()].  [None]: the call does not return. *)
Definition set (key : string) (value : T) (nonce : Buffer) (now : Z) (c : Cache)
    : option (Completion unit * Cache) :=
  match evict (maxSize c) (Map_delete key (store c)) with
  | None => None
  | Some m =>
      match JSON_stringify value with
      | Throw err => Some (Throw err, with_store c m)
      | Return plaintext =>
          let '(ct, ivHex, tag) := encrypt (encryptKey c) nonce plaintext in
          let entry :=
            {| ciphertext := ct; iv := ivHex; authTag := tag;
               createdAt := now; lastAccessedAt := now |} in
          Some (Return tt, with_store c (Map_set key entry m))
      end
  end.

(** [get(key)]; [now] and [now'] are the two values of [Date.now()], in the
    expiry test and in the update of [lastAccessedAt].  [Return None] is
    [undefined]. *)
Definition get (key : string) (now now' : Z) (c : Cache)
    : Completion (option T) * Cache :=
  match Map_get key (store c) with
  | None => (Return None, c)
  | Some entry =>
      if decide (now - createdAt entry > ttlMs c) then
        (Return None, with_store c (Map_delete key (store c)))
      else
        let entry' :=
          {| ciphertext := ciphertext entry; iv := iv entry;
             authTag := authTag entry; createdAt := createdAt entry;
             lastAccessedAt := now' |} in
        let m := Map_set key entry' (Map_delete key (store c)) in
        match
          (plaintext <- decrypt (encryptKey c) (ciphertext entry') (iv entry')
                          (authTag entry') ;;
           JSON_parse plaintext)
        with
        | Return value => (Return (Some value), with_store c m)
        | Throw _ => (Return None, with_store c (Map_delete key m))
        end
  end.

(** [has(key)] *)
Definition has (key : string) (now : Z) (c : Cache) : bool * Cache :=
  match Map_get key (store c) with
  | None => (false, c)
  | Some entry =>
      if decide (now - createdAt entry > ttlMs c) then
        (false, with_store c (Map_delete key (store c)))
      else (true, c)
  end.

(** [delete(key)] *)
Definition delete (key : string) (c : Cache) : bool * Cache :=
  (Map_has key (store c), with_store c (Map_delete key (store c))).

(** [clear()] *)
Definition clear (c : Cache) : Cache := with_store c [].

(** [size] *)
Definition size (c : Cache) : Z := Z.of_nat (length (store c)).

(** [prune()]: the entries visited by the [for ... of] loop are all entries
    of the map; the expired ones are deleted, the others stay in order. *)
Definition prune (now : Z) (c : Cache) : Z * Cache :=
  (Z.of_nat (length (filter (expired (ttlMs c) now) (store c))),
   with_store c (filter (fun kv => ¬ expired (ttlMs c) now kv) (store c))).

(** *** Histories of the cache *)

Inductive Op : Type :=
| OpSet (key : string) (value : T) (nonce : Buffer) (now : Z)
| OpGet (key : string) (now now' : Z)
| OpHas (key : string) (now : Z)
| OpDelete (key : string)
| OpClear
| OpPrune (now : Z).

(** The cache after one operation; [None] when the operation does not
    return. *)
Definition apply (op : Op) (c : Cache) : option Cache :=
  match op with
  | OpSet key value nonce now => snd <$> set key value nonce now c
  | OpGet key now now' => Some (get key now now' c).2
  | OpHas key now => Some (has key now c).2
  | OpDelete key => Some (delete key c).2
  | OpClear => Some (clear c)
  | OpPrune now => Some (prune now c).2
  end.

Fixpoint exec (ops : list Op) (c : Cache) : option Cache :=
  match ops with
  | [] => Some c
  | op :: ops' =>
      match apply op c with
      | None => None
      | Some c' => exec ops' c'
      end
  end.


End Operations.

(** *** Notions used in the statements about the cache *)



(** The tag lengths that [decipher.setAuthTag] accepts on a GCM decipher
    made without the [authTagLength] option, as [decrypt] makes it: 4, 8
    and 12 to 16 bytes. *)
Definition acceptedTagLength (n : nat) : bool :=
  bool_decide (n = 4 ∨ n = 8 ∨ 12 <= n <= 16)%nat.

Section Statements.

Context {T : Type} {platform : Platform T}.

(** Decoding the hex string of a buffer gives the buffer back. *)
Definition hex_roundtrip : Prop :=
  ∀ b : Buffer, fromHex (toHex b) = b.

(** Opening what [seal] produced, with the same key and nonce, gives the
    plaintext back. *)
Definition seal_then_open : Prop :=
  ∀ (key nonce : Buffer) (plaintext : string),
    aes256gcm_open key nonce (aes256gcm_seal key nonce plaintext).2
      (aes256gcm_seal key nonce plaintext).1 = Return plaintext.

(** [decipher.final] compares the tag given to [setAuthTag] with as many
    bytes of the tag it computes as the given tag has: where a tag opens a
    ciphertext, so does every cut of that tag to an accepted length. *)
Definition open_checks_given_bytes : Prop :=
  ∀ (key nonce tag encrypted : Buffer) (plaintext : string) (n : nat),
    aes256gcm_open key nonce tag encrypted = Return plaintext ->
    acceptedTagLength n = true ->
    (n <= length tag)%nat ->
    aes256gcm_open key nonce (take n tag) encrypted = Return plaintext.

(** The authentication of the tag: a ciphertext that [seal] produced under
    the key and the nonce is opened only by the tag that [seal] produced
    with it, whole or cut to an accepted length.  Any other tag ends in the
    exception of [setAuthTag] or of [final]. *)
Definition open_only_cut_of_genuine : Prop :=
  ∀ (key nonce tag fullTag encrypted : Buffer) (plaintext opened : string),
    aes256gcm_seal key nonce plaintext = (encrypted, fullTag) ->
    aes256gcm_open key nonce tag encrypted = Return opened ->
    ∃ n : nat, acceptedTagLength n = true ∧ tag = take n fullTag.

(** [value] survives [JSON.stringify] and [JSON.parse]. *)
Definition serializable (value : T) : Prop :=
  ∃ text : string, JSON_stringify value = Return text ∧ JSON_parse text = Return value.

(** The entry with the first [n] bytes of its tag only, the hex string
    [entry.authTag] cut to its first [2 * n] digits. *)
Definition cutTag (n : nat) (entry : CacheEntry) : CacheEntry :=
  {| ciphertext := ciphertext entry; iv := iv entry;
     authTag := toHex (take n (fromHex (authTag entry)));
     createdAt := createdAt entry; lastAccessedAt := lastAccessedAt entry |}.

(** Every entry of [key] in the map was created at [t0]. *)
Definition born (key : string) (t0 : Z) (m : EntryMap) : Prop :=
  ∀ entry, (key, entry) ∈ m -> createdAt entry = t0.

(** Any operation but a [set] of [key] itself. *)
Definition leaves_alone (key : string) (op : @Op T) : Prop :=
  match op with
  | OpSet k _ _ _ => k ≠ key
  | _ => True
  end.





(** How the store changes in one operation: it shrinks to a sublist, and a
    [set] that stored its value, or a [get] that read the entry, then puts
    one entry at the end. *)
Inductive StoreChange (m : EntryMap) : Op -> EntryMap -> Prop :=
| change_shrink (op : Op) (m' : EntryMap) :
    m' `sublist_of` m -> StoreChange m op m'
| change_set (key : string) (value : T) (nonce : Buffer) (now : Z)
    (m' : EntryMap) (entry : CacheEntry) :
    m' `sublist_of` Map_delete key m ->
    createdAt entry = now -> lastAccessedAt entry = now ->
    StoreChange m (OpSet key value nonce now) (m' ++ [(key, entry)])
| change_get (key : string) (now now' : Z) (entry entry' : CacheEntry) :
    Map_get key m = Some entry ->
    createdAt entry' = createdAt entry -> lastAccessedAt entry' = now' ->
    StoreChange m (OpGet key now now') (Map_delete key m ++ [(key, entry')]).

End Statements.

(** *** A platform to run the cache on

    A stand-in for node:crypto without any secrecy, for a cache of strings
    (the bot caches API keys): the "ciphertext" is the plaintext, the tag is
    the first 16 bytes of the ciphertext, the nonce and the key together,
    and [open] accepts that tag, whole or cut to an accepted length.
    Buffers are shown as the string of their bytes. *)

#[local] Instance byte_eq_dec : EqDecision Byte.byte :=
  Stdlib.Strings.Byte.byte_eq_dec.

Definition plainTag (key nonce encrypted : Buffer) : Buffer :=
  take 16 (encrypted ++ nonce ++ key ++ replicate 16 Byte.x00).

Definition plainPlatform : Platform string := {|
  sha256 := String.list_byte_of_string;
  aes256gcm_seal key nonce plaintext :=
    (String.list_byte_of_string plaintext,
     plainTag key nonce (String.list_byte_of_string plaintext));
  aes256gcm_open key nonce tag encrypted :=
    if acceptedTagLength (length tag) then
      if decide (tag = take (length tag) (plainTag key nonce encrypted))
      then Return (String.string_of_list_byte encrypted)
      else Throw "Unsupported state or unable to authenticate data"
    else Throw "Invalid authentication tag length";
  toHex := String.string_of_list_byte;
  fromHex := String.list_byte_of_string;
  JSON_stringify value := Return value;
  JSON_parse text := Return text
|}.

Definition plainOptions : LRUCacheOptions :=
  {| o_maxSize := 2; o_ttlMs := 1000; o_encryptSecret := "lark-robot-secret" |}.

Definition plainNonce : Buffer := String.list_byte_of_string "0123456789abcdef".

(** The cache of [plainOptions] after [set("ou_1", "sk-AAA")] at time 10. *)
Definition plainStored : Cache :=
  match
    set (platform := plainPlatform) "ou_1" "sk-AAA" plainNonce 10
      (new (platform := plainPlatform) plainOptions)
  with
  | Some (_, c) => c
  | None => new (platform := plainPlatform) plainOptions
  end.

(** The entry that [plainStored] holds. *)
Definition plainEntry : CacheEntry :=
  {| ciphertext := "sk-AAA"; iv := "0123456789abcdef";
     authTag := "sk-AAA0123456789"; createdAt := 10; lastAccessedAt := 10 |}.

(** The same cache with the tag of the stored entry overwritten. *)
Definition plainTampered : Cache :=
  with_store plainStored
    [("ou_1",
      {| ciphertext := "sk-AAA"; iv := "0123456789abcdef";
         authTag := "forged"; createdAt := 10; lastAccessedAt := 10 |})].

(** The same cache with the tag of the stored entry cut to its first four
    bytes. *)
Definition plainCut : Cache :=
  with_store plainStored
    [("ou_1",
      {| ciphertext := "sk-AAA"; iv := "0123456789abcdef";
         authTag := "sk-A"; createdAt := 10; lastAccessedAt := 10 |})].

(** Reads of the key spread over its life time. *)
Definition plainReads : list (@Op string) :=
  [OpGet "ou_1" 500 501; OpHas "ou_1" 900; OpGet "ou_1" 1000 1001;
   OpGet "ou_2" 1002 1003].

End EncryptedLRUCache.

(** ** queue/generation-queue.ts, counted from outside *)

Module QueueLedger.

Import SessionManager GenerationQueue.

(** The [status] getter. *)
Record Status : Set := mkStatus {
  st_running : Z;
  st_waiting : Z;
  st_maxConcurrency : Z;
  st_maxQueueLength : Z
}.

Definition status (q : State) : Status :=
  {| st_running := running q;
     st_waiting := Z.of_nat (length (waiting q));
     st_maxConcurrency := maxConcurrency q;
     st_maxQueueLength := maxQueueLength q |}.

(** The queue with two logs kept beside it, both in the order of the
    events: the requests that [enqueue] answered with [accepted: true], and
    the jobs passed to [generationExecutor.execute], by [enqueue] or by a
    completion; and the number of [finally] callbacks that have run. *)
Record Ledger : Set := mkLedger {
  book : State;
  accepted : list Job;
  started : list Job;
  completed : Z
}.

Definition open (maxC maxQ : Z) : Ledger :=
  {| book := init maxC maxQ; accepted := []; started := []; completed := 0 |}.

Definition isAccepted (result : EnqueueResult) : bool :=
  match result with
  | Accepted _ => true
  | Rejected _ => false
  end.

Definition record (input : Sessions * Event) (l : Ledger) : Ledger :=
  match input with
  | (sessions, EvEnqueue sid svc now) =>
      let '(result, q', effects) := enqueue sessions sid svc now (book l) in
      {| book := q';
         accepted := accepted l ++ (if isAccepted result then [(sid, svc)] else []);
         started := started l ++ executed effects;
         completed := completed l |}
  | (sessions, EvComplete) =>
      let '(q', effects) := complete sessions (book l) in
      {| book := q';
         accepted := accepted l;
         started := started l ++ executed effects;
         completed := completed l + 1 |}
  end.

Fixpoint tally (trace : list (Sessions * Event)) (l : Ledger) : Ledger :=
  match trace with
  | [] => l
  | input :: trace' => tally trace' (record input l)
  end.

Definition isComplete (input : Sessions * Event) : bool :=
  match input.2 with
  | EvComplete => true
  | EvEnqueue _ _ _ => false
  end.

(** The number of job completions in a trace. *)
Definition completions (trace : list (Sessions * Event)) : nat :=
  length (List.filter isComplete trace).

End QueueLedger.

(** ** cache/encrypted-lru-cache.ts with values that may be [undefined] *)

Module OptionalValues.

Import EncryptedLRUCache.

(** The plain platform for a cache of [string | undefined]:
    [JSON.stringify(undefined)] is [undefined], which [cipher.update]
    refuses with a [TypeError]. *)
Definition optionalPlatform : Platform (option string) := {|
  sha256 := sha256 (Platform := plainPlatform);
  aes256gcm_seal := aes256gcm_seal (Platform := plainPlatform);
  aes256gcm_open := aes256gcm_open (Platform := plainPlatform);
  toHex := toHex (Platform := plainPlatform);
  fromHex := fromHex (Platform := plainPlatform);
  JSON_stringify value :=
    match value with
    | Some text => Return text
    | None => Throw "The 'data' argument must be of type string"
    end;
  JSON_parse text := Return (Some text)
|}.

End OptionalValues.

(** ** The callers: API key cache, card actions, message handler *)

(** JavaScript strings whose length and characters matter are lists of
    UTF-16 code units here. *)
Module JsText.

Definition JsString : Set := list N.

(** ["****"] *)
Definition stars : JsString := [42; 42; 42; 42]%N.

Fixpoint dropWhile (f : N -> bool) (l : list N) : list N :=
  match l with
  | [] => []
  | u :: l' => if f u then dropWhile f l' else l
  end.

Fixpoint dropWhileEnd (f : N -> bool) (l : list N) : list N :=
  match l with
  | [] => []
  | u :: l' =>
      match dropWhileEnd f l' with
      | [] => if f u then [] else [u]
      | kept => u :: kept
      end
  end.

End JsText.

(** *** cache/api-key-cache.ts *)

Module ApiKeyCacheService.

Import JsText.

(** [maskKey(key)]: [key.slice(0, 4)], four stars, [key.slice(-4)]. *)
Definition maskKey (key : list N) : list N :=
  if decide (length key <= 8)%nat then stars
  else take 4 key ++ stars ++ drop (length key - 4) key.

End ApiKeyCacheService.

(** *** cards/actions.ts *)

Module CardActionService.

Import SessionManager GenerationQueue QueueLedger JsText.

(** The class [\s] of a regular expression without the [u] flag: the
    white space and line terminator code units of ECMAScript. *)
Definition isWhiteSpace (u : N) : bool :=
  ((9 <=? u) && (u <=? 13) || (u =? 32) || (u =? 160) || (u =? 5760)
   || (8192 <=? u) && (u <=? 8202) || (u =? 8232) || (u =? 8233)
   || (u =? 8239) || (u =? 8287) || (u =? 12288) || (u =? 65279))%N.

(** The class of the first alternative: white space, double quote (34),
    single quote (39) and backquote (96). *)
Definition strippedInFront (u : N) : bool :=
  (isWhiteSpace u || (u =? 34) || (u =? 39) || (u =? 96))%N.

(** The class of the second alternative: the same, and comma (44) and
    semicolon (59). *)
Definition strippedAtEnd (u : N) : bool :=
  (strippedInFront u || (u =? 44) || (u =? 59))%N.

(** The cleaning of the key typed into the form, [apiKeyFromForm.replace]
    with a global regular expression of two alternatives: one or more
    units of the first class at the start of the string, or one or more
    units of the second class at its end.  The first alternative can only
    match at index 0, where it takes the longest run of its class; the
    second then matches at the leftmost index from which the rest of the
    string is a non-empty run of its class.  Both matches are replaced by
    the empty string. *)
Definition cleanApiKey (raw : list N) : list N :=
  dropWhileEnd strippedAtEnd (dropWhile strippedInFront raw).

(** The masking of the key in the log line of [handleCardAction],
    [apiKey.length > 8 ? `${apiKey.slice(0, 4)}****${apiKey.slice(-4)}` : '****']. *)
Definition masked (apiKey : list N) : list N :=
  if decide (8 < length apiKey)%nat
  then take 4 apiKey ++ stars ++ drop (length apiKey - 4) apiKey
  else stars.

(** What [handleCardAction] returns after the form is read: a card of the
    queue ([buildQueueCard], [buildProgressCard]) or the card of
    [buildQueueFullCard]. *)
Inductive Reply : Set :=
| ReplyCard (card : Card)
| ReplyQueueFull (promptSummary : string) (maxLength : Z).

(** The end of [handleCardAction]: the call of [generationQueue.enqueue]
    and the card chosen from its answer.  [config.queue.maxLength] is the
    value the queue was constructed with. *)
Definition submit (sessions : Sessions) (sessionId : string)
    (service : ImageGenerationService) (now : Z) (promptSummary : string)
    (q : State) : Reply * State * list Effect :=
  let '(result, q', effects) := enqueue sessions sessionId service now q in
  match result with
  | Rejected _ => (ReplyQueueFull promptSummary (maxQueueLength q'), q', effects)
  | Accepted position =>
      if decide (position > 0) then
        (ReplyCard (QueueCard promptSummary position (st_waiting (status q'))),
         q', effects)
      else (ReplyCard (ProgressCard promptSummary), q', effects)
  end.

End CardActionService.

(** *** The message handler *)

Module MessageHandler.

(** [processedMessages], a [Set<string>]: its members in insertion order. *)
Definition Set_has (id : string) (members : list string) : bool :=
  bool_decide (id ∈ members).

Definition Set_add (id : string) (members : list string) : list string :=
  if decide (id ∈ members) then members else members ++ [id].

Definition Set_delete (id : string) (members : list string) : list string :=
  filter (fun x => x ≠ id) members.

(** The number of members dropped by a pruning, [5000]. *)
Definition dropped : nat := Z.to_nat 5000.

(** [pruneProcessedMessages()] *)
Definition pruneProcessedMessages (members : list string) : list string :=
  if decide (Z.of_nat (length members) > 10000) then
    foldl (fun kept id => Set_delete id kept) members (take dropped members)
  else members.

(** The first lines of [handle]: a message id that is already in the set
    ends the call ([true]); a new one is added and the set is pruned. *)
Definition seen (id : string) (members : list string) : bool * list string :=
  if Set_has id members then (true, members)
  else (false, pruneProcessedMessages (Set_add id members)).

Fixpoint feed (ids : list string) (members : list string) : list string :=
  match ids with
  | [] => members
  | id :: ids' => feed ids' (seen id members).2
  end.

End MessageHandler.

(** * Properties *)

(** ** Session store *)

Module SessionManagerProps.

Import SessionManager.

Lemma assign_prop_given {A : Type} (v old : A) : assign_prop (Some v) old = v.
Proof. reflexivity. Qed.

Lemma assign_prop_missing {A : Type} (old : A) : assign_prop None old = old.
Proof. reflexivity. Qed.

(** [Object.assign] never touches the members that [SessionUpdates] cannot
    name. *)
Lemma Object_assign_fixed (session : Session) (updates : SessionUpdates) :
  let session' := Object_assign session updates in
  id session' = id session ∧ userId session' = userId session ∧
  chatId session' = chatId session ∧ messageId session' = messageId session ∧
  textContent session' = textContent session ∧
  imageKeys session' = imageKeys session ∧
  createdAt session' = createdAt session.
Proof. by repeat split. Qed.

(** Merging nothing changes nothing. *)
Lemma Object_assign_empty (session : Session) :
  Object_assign session
    (mkUpdates None None None None None None None None None None) = session.
Proof. by destruct session. Qed.

(** C9.  [update] on an id that is not in the store returns [undefined] and
    leaves the store as it is; on an id that is in the store it returns the
    stored session with the given members replaced and all other members
    kept, and the store holds that merged session under the same id, every
    other session being untouched.  No path of [update] throws. *)
Theorem update_absent_or_merged
    (sid : string) (updates : SessionUpdates) (sessions : Sessions) :
  (sessions !! sid = None ->
     update sid updates sessions = (None, sessions)) ∧
  (∀ session, sessions !! sid = Some session ->
     ∃ session' sessions',
       update sid updates sessions = (Some session', sessions') ∧
       sessions' !! sid = Some session' ∧
       (∀ other, other ≠ sid -> sessions' !! other = sessions !! other) ∧
       (∀ v, u_status updates = Some v -> status session' = v) ∧
       (u_status updates = None -> status session' = status session) ∧
       (∀ v, u_cardMessageId updates = Some v -> cardMessageId session' = v) ∧
       (u_cardMessageId updates = None ->
          cardMessageId session' = cardMessageId session) ∧
       (∀ v, u_apiKey updates = Some v -> apiKey session' = v) ∧
       (u_apiKey updates = None -> apiKey session' = apiKey session) ∧
       artStyle session' = assign_prop (u_artStyle updates) (artStyle session) ∧
       aspectRatio session' =
         assign_prop (u_aspectRatio updates) (aspectRatio session) ∧
       brightness session' =
         assign_prop (u_brightness updates) (brightness session) ∧
       colorTone session' =
         assign_prop (u_colorTone updates) (colorTone session) ∧
       detailLevel session' =
         assign_prop (u_detailLevel updates) (detailLevel session) ∧
       negativePrompt session' =
         assign_prop (u_negativePrompt updates) (negativePrompt session) ∧
       seed session' = assign_prop (u_seed updates) (seed session) ∧
       id session' = id session ∧ userId session' = userId session ∧
       chatId session' = chatId session ∧
       messageId session' = messageId session ∧
       textContent session' = textContent session ∧
       imageKeys session' = imageKeys session ∧
       createdAt session' = createdAt session).
Proof.
  split.
  - intros Hnone. unfold update. by rewrite Hnone.
  - intros session Hsome.
    exists (Object_assign session updates),
      (<[sid := Object_assign session updates]> sessions).
    unfold update. rewrite Hsome. simpl.
    split; [done |].
    split; [apply lookup_insert_eq |].
    split; [intros other Hne; by apply lookup_insert_ne |].
    repeat split; try done.
    all: try (intros v Hv; by rewrite Hv).
    all: intros Hv; by rewrite Hv.
Qed.

Lemma update_absent_or_merged_witness :
  (∅ : Sessions) !! "s_9" = None ∧
  update "s_9" demoUpdates ∅ = (None, ∅) ∧
  ({[ "s_1" := demoSession ]} : Sessions) !! "s_1" = Some demoSession ∧
  ∃ session' sessions',
    update "s_1" demoUpdates {[ "s_1" := demoSession ]}
      = (Some session', sessions') ∧
    status session' = generating ∧ apiKey session' = Some "sk-1" ∧
    cardMessageId session' = Some "om_card".
Proof.
  split; [reflexivity |].
  split; [apply (update_absent_or_merged "s_9" demoUpdates ∅); reflexivity |].
  split; [apply lookup_singleton_eq |].
  destruct (proj2 (update_absent_or_merged "s_1" demoUpdates
                     {[ "s_1" := demoSession ]}) demoSession
              (lookup_singleton_eq _ _))
    as (session' & sessions' & Hupd & _ & _ & Hst & _ & _ & Hcard & Hkey & _).
  exists session', sessions'.
  split; [exact Hupd |].
  split; [apply Hst; reflexivity |].
  split; [apply Hkey; reflexivity |].
  rewrite Hcard; reflexivity.
Defined.

End SessionManagerProps.

(** ** Generation queue *)

Module GenerationQueueProps.

Import SessionManager GenerationQueue.

(** *** Effects *)

Lemma executed_app (e1 e2 : list Effect) :
  executed (e1 ++ e2) = executed e1 ++ executed e2.
Proof.
  induction e1 as [| [cid card | sid svc] e1 IH]; simpl; [done | done |].
  by rewrite IH.
Qed.

Lemma executed_updateToProgress (sessions : Sessions) (sid : string) :
  executed (updateToProgress sessions sid) = [].
Proof. unfold updateToProgress. by destruct (cardOf sessions sid) as [[cid s] |]. Qed.

Lemma notifyLoop_notification (sessions : Sessions) (total : Z)
    (items : list QueueItem) :
  ∀ i : Z,
    notifyLoop sessions total i items =
    concat (imap (fun k item =>
                    notification sessions (i + Z.of_nat k + 1) total item) items).
Proof.
  induction items as [| item items IH]; intros i; simpl; [done |].
  rewrite IH. f_equal.
  - unfold notification. by replace (i + Z.of_nat 0 + 1) with (i + 1) by lia.
  - f_equal. apply imap_ext. intros k x _. simpl. f_equal. lia.
Qed.

Lemma executed_notifyLoop (sessions : Sessions) (total : Z) (items : list QueueItem) :
  ∀ i : Z, executed (notifyLoop sessions total i items) = [].
Proof.
  induction items as [| item items IH]; intros i; simpl; [done |].
  rewrite executed_app, IH.
  by destruct (cardOf sessions (sessionId item)) as [[cid s] |].
Qed.

Lemma executed_run (sessions : Sessions) (item : QueueItem) (q : State) :
  executed (run sessions item q).2 = [job item].
Proof.
  unfold run; simpl. by rewrite executed_app, executed_updateToProgress.
Qed.

(** *** The dispatch loop *)

(** What the loop of [processNext] guarantees, whatever state it starts in:
    the limits are untouched, the counter stays within the limit, the loop
    only stops with waiters left when no slot is free, and the jobs it
    started are a prefix of the wait list, in order. *)
Lemma processNextLoop_sound (sessions : Sessions) (w : list QueueItem) :
  ∀ q : State,
    let r := processNextLoop sessions q w in
    maxConcurrency r.1 = maxConcurrency q ∧
    maxQueueLength r.1 = maxQueueLength q ∧
    (running q <= maxConcurrency q -> running r.1 <= maxConcurrency q) ∧
    (waiting r.1 ≠ [] -> maxConcurrency q <= running r.1) ∧
    executed r.2 ++ map job (waiting r.1) = map job w.
Proof.
  induction w as [| next rest IH]; intros q; simpl.
  - by repeat split.
  - destruct (decide (running q < maxConcurrency q)) as [Hlt | Hge].
    + specialize (IH (set_running (set_waiting q rest) (running q + 1))).
      destruct (processNextLoop sessions
                  (set_running (set_waiting q rest) (running q + 1)) rest)
        as [q2 e3] eqn:Hloop.
      simpl in IH |- *.
      destruct IH as (Hc & Hq & Hr & Hw & Hjobs).
      repeat split; try done.
      * intros _. apply Hr. lia.
      * rewrite !executed_app, executed_updateToProgress. simpl.
        unfold notifyQueuePositions. rewrite executed_notifyLoop. simpl.
        by rewrite Hjobs.
    + simpl. repeat split; try done. intros _. lia.
Qed.

(** With exactly one free slot and a waiter, the loop runs once: it starts
    the head of the wait list and tells the others their new place. *)
Lemma processNextLoop_one_slot (sessions : Sessions) (q : State)
    (next : QueueItem) (rest : list QueueItem) :
  running q + 1 = maxConcurrency q ->
  processNextLoop sessions q (next :: rest) =
    (set_running (set_waiting q rest) (running q + 1),
     updateToProgress sessions (sessionId next)
       ++ [Execute (sessionId next) (service next)]
       ++ notifyLoop sessions (Z.of_nat (length rest)) 0 rest).
Proof.
  intros Hslot. simpl.
  destruct (decide (running q < maxConcurrency q)) as [_ | Hge]; [| lia].
  assert (Hstop : processNextLoop sessions
            (set_running (set_waiting q rest) (running q + 1)) rest =
          (set_running (set_waiting q rest) (running q + 1), [])).
  { destruct rest as [| x rest']; simpl; [done |].
    destruct (decide (running q + 1 < maxConcurrency q)); [lia | done]. }
  rewrite Hstop. unfold notifyQueuePositions. simpl.
  by rewrite app_nil_r, <- app_assoc.
Qed.

(** *** Invariants of a history *)

Lemma Inv_start (maxC maxQ : Z) : 0 <= maxC -> Inv maxC maxQ (start maxC maxQ).
Proof. intros Hpos. by split. Qed.

Lemma Inv_step (maxC maxQ : Z) (input : Sessions * Event) (h : History) :
  Inv maxC maxQ h -> Inv maxC maxQ (step input h).
Proof.
  intros [Hc Hq Hr Hbusy Hfifo]. destruct input as [sessions [sid svc now |]].
  - unfold step, enqueue.
    destruct (decide (running (state h) < maxConcurrency (state h)
                      ∧ length (waiting (state h)) = 0%nat)) as [[Hlt Hempty] | Hno].
    + apply length_zero_iff_nil in Hempty. simpl.
      split; simpl.
      * exact Hc.
      * exact Hq.
      * lia.
      * by rewrite Hempty.
      * rewrite Hempty in Hfifo |- *. simpl in Hfifo |- *.
        rewrite app_nil_r in Hfifo. by rewrite !app_nil_r.
    + destruct (decide (Z.of_nat (length (waiting (state h)))
                        >= maxQueueLength (state h))) as [Hfull | Hroom].
      * split; simpl; [exact Hc | exact Hq | exact Hr | exact Hbusy |].
        by rewrite app_nil_r.
      * split; simpl; [exact Hc | exact Hq | exact Hr | |].
        -- intros _. destruct (waiting (state h)) as [| x w] eqn:Hw.
           ++ assert (¬ running (state h) < maxConcurrency (state h))
                by (intros Hlt; apply Hno; by split).
              lia.
           ++ by apply Hbusy.
        -- rewrite length_app. simpl.
           destruct (decide (Z.of_nat (length (waiting (state h)) + 1) = 0))
             as [Hz | _]; [lia |].
           by rewrite map_app, app_assoc, Hfifo.
  - unfold step, complete, processNext. simpl.
    pose proof (processNextLoop_sound sessions (waiting (state h))
                  (set_running (state h) (running (state h) - 1))) as Hloop.
    simpl in Hloop.
    destruct (processNextLoop sessions
                (set_running (state h) (running (state h) - 1))
                (waiting (state h))) as [q' effects].
    simpl in Hloop |- *. destruct Hloop as (Hc' & Hq' & Hr' & Hw' & Hjobs).
    split; simpl.
    + congruence.
    + congruence.
    + rewrite <- Hc. apply Hr'. lia.
    + intros Hne. specialize (Hw' Hne).
      assert (running q' <= maxConcurrency (state h)) by (apply Hr'; lia).
      lia.
    + by rewrite <- app_assoc, Hjobs.
Qed.

Lemma Inv_exec (maxC maxQ : Z) (trace : list (Sessions * Event)) :
  ∀ h, Inv maxC maxQ h -> Inv maxC maxQ (exec trace h).
Proof.
  induction trace as [| input trace IH]; intros h Hinv; simpl; [done |].
  apply IH. by apply Inv_step.
Qed.

(** The FIFO equation alone needs no assumption on the limits. *)
Lemma fifo_step (input : Sessions * Event) (h : History) :
  dispatchedLog h ++ map job (waiting (state h)) = queuedLog h ->
  dispatchedLog (step input h) ++ map job (waiting (state (step input h)))
    = queuedLog (step input h).
Proof.
  intros Hfifo. destruct input as [sessions [sid svc now |]].
  - unfold step, enqueue.
    destruct (decide (running (state h) < maxConcurrency (state h)
                      ∧ length (waiting (state h)) = 0%nat)) as [[Hlt Hempty] | Hno].
    + apply length_zero_iff_nil in Hempty. simpl.
      rewrite Hempty in Hfifo |- *. simpl in Hfifo |- *.
      rewrite app_nil_r in Hfifo. by rewrite !app_nil_r.
    + destruct (decide (Z.of_nat (length (waiting (state h)))
                        >= maxQueueLength (state h))) as [Hfull | Hroom]; simpl.
      * by rewrite app_nil_r.
      * rewrite length_app. simpl.
        destruct (decide (Z.of_nat (length (waiting (state h)) + 1) = 0))
          as [Hz | _]; [lia |].
        by rewrite map_app, app_assoc, Hfifo.
  - unfold step, complete, processNext. simpl.
    pose proof (processNextLoop_sound sessions (waiting (state h))
                  (set_running (state h) (running (state h) - 1))) as Hloop.
    simpl in Hloop.
    destruct (processNextLoop sessions
                (set_running (state h) (running (state h) - 1))
                (waiting (state h))) as [q' effects].
    simpl in Hloop |- *. destruct Hloop as (_ & _ & _ & _ & Hjobs).
    by rewrite <- app_assoc, Hjobs.
Qed.

Lemma fifo_exec (trace : list (Sessions * Event)) :
  ∀ h,
    dispatchedLog h ++ map job (waiting (state h)) = queuedLog h ->
    dispatchedLog (exec trace h) ++ map job (waiting (state (exec trace h)))
      = queuedLog (exec trace h).
Proof.
  induction trace as [| input trace IH]; intros h Hfifo; simpl; [done |].
  apply IH. by apply fifo_step.
Qed.

(** *** Statements about every history *)

(** C1.  Whatever calls of [enqueue] and job completions have happened so
    far (every prefix of every trace, from the freshly constructed queue),
    the number of running jobs is at most [maxConcurrency].  The limit comes
    from the validated configuration, which makes it at least 1; the
    statement needs only that it is not negative. *)
Theorem running_within_maxConcurrency
    (maxC maxQ : Z) (trace : list (Sessions * Event)) (n : nat) :
  0 <= maxC ->
  running (state (exec (take n trace) (start maxC maxQ)))
    <= maxConcurrency (state (exec (take n trace) (start maxC maxQ))).
Proof.
  intros Hpos.
  destruct (Inv_exec maxC maxQ (take n trace) _ (Inv_start maxC maxQ Hpos))
    as [Hc _ Hr _ _].
  by rewrite Hc.
Qed.

(** C10.  After every call of [enqueue] and every job completion, a
    non-empty wait list means that all [maxConcurrency] slots are taken. *)
Theorem waiting_implies_all_slots_busy
    (maxC maxQ : Z) (trace : list (Sessions * Event)) :
  0 <= maxC ->
  waiting (state (exec trace (start maxC maxQ))) ≠ [] ->
  running (state (exec trace (start maxC maxQ)))
    = maxConcurrency (state (exec trace (start maxC maxQ))).
Proof.
  intros Hpos Hwait.
  destruct (Inv_exec maxC maxQ trace _ (Inv_start maxC maxQ Hpos))
    as [Hc _ _ Hbusy _].
  rewrite Hc. by apply Hbusy.
Qed.

(** C3.  In every history the jobs taken from the wait list, in the order
    they were started, followed by the jobs still waiting, are exactly the
    jobs that were put on the wait list, in the order they arrived.  So when
    A was queued before B (places [i < j] in the arrival order) and B has
    been dispatched, A has been dispatched too, and earlier (places [i < j]
    in the dispatch order).  A completion that finds a free slot starts the
    head of the wait list first. *)
Theorem fifo_dispatch_order
    (maxC maxQ : Z) (trace : list (Sessions * Event)) :
  let h := exec trace (start maxC maxQ) in
  dispatchedLog h ++ map job (waiting (state h)) = queuedLog h ∧
  (∀ (i j : nat) (a b : Job),
     (i < j)%nat ->
     queuedLog h !! i = Some a ->
     queuedLog h !! j = Some b ->
     (j < length (dispatchedLog h))%nat ->
     dispatchedLog h !! i = Some a ∧ dispatchedLog h !! j = Some b) ∧
  (∀ (sessions : Sessions) (next : QueueItem) (rest : list QueueItem),
     waiting (state h) = next :: rest ->
     running (state h) - 1 < maxConcurrency (state h) ->
     head (executed (complete sessions (state h)).2) = Some (job next)).
Proof.
  intros h.
  assert (Hfifo : dispatchedLog h ++ map job (waiting (state h)) = queuedLog h)
    by (by apply fifo_exec).
  split; [exact Hfifo |]. split.
  - intros i j a b Hij Ha Hb Hj. rewrite <- Hfifo in Ha, Hb.
    rewrite lookup_app_l in Ha by lia. rewrite lookup_app_l in Hb by lia.
    done.
  - intros sessions next rest Hw Hslot.
    unfold complete, processNext. simpl. rewrite Hw. simpl.
    destruct (decide (running (state h) - 1 < maxConcurrency (state h)))
      as [_ | Hno]; [| done].
    destruct (processNextLoop sessions _ rest) as [q2 e3]. simpl.
    by rewrite !executed_app, executed_updateToProgress.
Qed.

(** C2, as the code has it.  [enqueue] follows the three-case rule: with a
    free slot and an empty wait list the job is started ([execute] is
    called, after the progress card), [running] grows by one and the answer
    is position 0; otherwise, with at least [maxQueueLength] waiters, the
    answer is a rejection whose reason is the text
    [当前排队人数已达上限 (N)，请稍后再试] naming the limit N, and nothing
    changes; otherwise the item goes to the end of the wait list and the
    answer is its 1-indexed position there, the new length of the list. *)
Theorem enqueue_three_cases
    (sessions : Sessions) (sid : string) (svc : ImageGenerationService)
    (now : Z) (q : State) :
  let item := mkItem sid svc now in
  (running q < maxConcurrency q ∧ waiting q = [] ->
     enqueue sessions sid svc now q =
       (Accepted 0, set_running q (running q + 1),
        updateToProgress sessions sid ++ [Execute sid svc])) ∧
  (¬ (running q < maxConcurrency q ∧ waiting q = []) ->
   Z.of_nat (length (waiting q)) >= maxQueueLength q ->
     enqueue sessions sid svc now q =
       (Rejected (queueFullReason (maxQueueLength q)), q, [])) ∧
  (¬ (running q < maxConcurrency q ∧ waiting q = []) ->
   Z.of_nat (length (waiting q)) < maxQueueLength q ->
     enqueue sessions sid svc now q =
       (Accepted (Z.of_nat (length (waiting q)) + 1),
        set_waiting q (waiting q ++ [item]), []) ∧
     (waiting q ++ [item]) !! length (waiting q) = Some item ∧
     positionAt (length (waiting q)) = Z.of_nat (length (waiting q ++ [item]))).
Proof.
  intros item. unfold enqueue. split; [| split].
  - intros [Hlt Hempty].
    destruct (decide (running q < maxConcurrency q
                      ∧ length (waiting q) = 0%nat)) as [_ | Hno]; [done |].
    exfalso. apply Hno. split; [done |]. by rewrite Hempty.
  - intros Hbusy Hfull.
    destruct (decide (running q < maxConcurrency q
                      ∧ length (waiting q) = 0%nat)) as [[Hlt Hz] | _].
    { exfalso. apply Hbusy. split; [done |]. by apply length_zero_iff_nil. }
    destruct (decide (Z.of_nat (length (waiting q)) >= maxQueueLength q));
      [done | lia].
  - intros Hbusy Hroom.
    destruct (decide (running q < maxConcurrency q
                      ∧ length (waiting q) = 0%nat)) as [[Hlt Hz] | _].
    { exfalso. apply Hbusy. split; [done |]. by apply length_zero_iff_nil. }
    destruct (decide (Z.of_nat (length (waiting q)) >= maxQueueLength q));
      [lia |].
    split; [| split].
    + unfold set_waiting at 1. simpl. rewrite length_app. simpl.
      do 3 f_equal. lia.
    + by apply list_lookup_middle.
    + unfold positionAt. rewrite length_app. simpl. lia.
Qed.

(** C4, as the code has it.  When a job completes in a reachable state
    whose wait list is [next :: rest], exactly [next] is dispatched, and
    the waiters in [rest] are then visited in order: the one that was at
    position [p] (of [total] waiters) gets a queue card with position
    [p - 1] and total [total - 1], provided its session is still in the
    session store with a non-empty card id; a waiter without one gets
    nothing ([notification] is empty for it). *)
Theorem renumbering_after_dispatch
    (maxC maxQ : Z) (trace : list (Sessions * Event)) (sessions : Sessions)
    (next : QueueItem) (rest : list QueueItem) :
  0 <= maxC ->
  waiting (state (exec trace (start maxC maxQ))) = next :: rest ->
  let q := state (exec trace (start maxC maxQ)) in
  let total := Z.of_nat (length (waiting q)) in
  ∃ (q' : State) (effects : list Effect),
    complete sessions q = (q', effects) ∧
    waiting q' = rest ∧
    running q' = running q ∧
    effects =
      updateToProgress sessions (sessionId next)
        ++ [Execute (sessionId next) (service next)]
        ++ concat (imap (fun i item =>
                           notification sessions (positionAt (S i) - 1)
                             (total - 1) item) rest).
Proof.
  intros Hpos Hw q total.
  destruct (Inv_exec maxC maxQ trace _ (Inv_start maxC maxQ Hpos))
    as [Hc _ _ Hbusy _].
  fold q in Hc, Hbusy, Hw.
  assert (Hfull : running q = maxC) by (apply Hbusy; by rewrite Hw).
  unfold complete, processNext. simpl. rewrite Hw.
  rewrite processNextLoop_one_slot by (simpl; lia).
  eexists _, _. split; [reflexivity |]. simpl.
  split; [done |]. split; [lia |].
  do 2 f_equal. rewrite notifyLoop_notification. f_equal.
  apply imap_ext. intros i item _. simpl.
  unfold total, positionAt. rewrite Hw. simpl length.
  f_equal; lia.
Qed.

(** *** The scenario, and where the code differs from the wording *)

Lemma threeRequests_busyQueue :
  state (exec threeRequests (start 1 2)) = busyQueue.
Proof. vm_compute. reflexivity. Qed.

Lemma running_within_maxConcurrency_witness :
  0 <= 1 ∧
  running (state (exec (take 4 (fourRequests ++ [(fourSessions, EvComplete)]))
                    (start 1 2)))
    <= maxConcurrency
         (state (exec (take 4 (fourRequests ++ [(fourSessions, EvComplete)]))
                   (start 1 2))).
Proof.
  split; [lia |].
  apply (running_within_maxConcurrency 1 2
           (fourRequests ++ [(fourSessions, EvComplete)]) 4).
  lia.
Defined.

Lemma waiting_implies_all_slots_busy_witness :
  waiting (state (exec fourRequests (start 1 2))) ≠ [] ∧
  running (state (exec fourRequests (start 1 2)))
    = maxConcurrency (state (exec fourRequests (start 1 2))).
Proof.
  split; [vm_compute; discriminate |].
  apply (waiting_implies_all_slots_busy 1 2 fourRequests);
    [lia | vm_compute; discriminate].
Defined.

Lemma fifo_dispatch_order_witness :
  let h := exec (fourRequests ++ [(fourSessions, EvComplete); (fourSessions, EvComplete)])
             (start 1 2) in
  queuedLog h !! 0%nat = Some (job itemB) ∧
  queuedLog h !! 1%nat = Some (job itemC) ∧
  dispatchedLog h !! 0%nat = Some (job itemB) ∧
  dispatchedLog h !! 1%nat = Some (job itemC).
Proof.
  intros h.
  assert (Hb : queuedLog h !! 0%nat = Some (job itemB))
    by (vm_compute; reflexivity).
  assert (Hc : queuedLog h !! 1%nat = Some (job itemC))
    by (vm_compute; reflexivity).
  split; [exact Hb |]. split; [exact Hc |].
  apply (proj1 (proj2 (fifo_dispatch_order 1 2
    (fourRequests ++ [(fourSessions, EvComplete); (fourSessions, EvComplete)])))
    0%nat 1%nat (job itemB) (job itemC)).
  - lia.
  - exact Hb.
  - exact Hc.
  - vm_compute. lia.
Defined.

Lemma enqueue_three_cases_witness :
  enqueue fourSessions "s_a" svc 1 (init 1 2) =
    (Accepted 0, mkState 1 2 1 [],
     [UpdateCard "card_a" (ProgressCard "a red fox"); Execute "s_a" svc]) ∧
  enqueue fourSessions "s_d" svc 4 busyQueue =
    (Rejected (queueFullReason 2), busyQueue, []) ∧
  enqueue fourSessions "s_c" svc 3 (mkState 1 2 1 [itemB]) =
    (Accepted 2, busyQueue, []).
Proof.
  split; [| split].
  - apply (proj1 (enqueue_three_cases fourSessions "s_a" svc 1 (init 1 2))).
    split; [simpl; lia | reflexivity].
  - apply (proj1 (proj2 (enqueue_three_cases fourSessions "s_d" svc 4 busyQueue))).
    + simpl. intros [Hlt _]. lia.
    + simpl. lia.
  - apply (proj2 (proj2 (enqueue_three_cases fourSessions "s_c" svc 3
                           (mkState 1 2 1 [itemB])))).
    + simpl. intros [Hlt _]. lia.
    + simpl. lia.
Defined.

(** C2, where the wording differs: the reason handed back with a rejection
    is the user-facing text of the code, which names the limit; it is not
    the string "queue full". *)
Lemma enqueue_rejection_reason_text :
  (enqueue fourSessions "s_d" svc 4 busyQueue).1.1
    = Rejected "当前排队人数已达上限 (2)，请稍后再试" ∧
  (enqueue fourSessions "s_d" svc 4 busyQueue).1.1 ≠ Rejected "queue full".
Proof. split; [vm_compute; reflexivity | vm_compute; discriminate]. Qed.

Lemma renumbering_after_dispatch_witness :
  0 <= 1 ∧
  waiting (state (exec threeRequests (start 1 2))) = itemB :: [itemC] ∧
  ∃ (q' : State) (effects : list Effect),
    complete fourSessions (state (exec threeRequests (start 1 2)))
      = (q', effects) ∧
    waiting q' = [itemC] ∧
    effects =
      [UpdateCard "card_b" (ProgressCard "a blue whale");
       Execute "s_b" svc;
       UpdateCard "card_c" (QueueCard "(仅图片输入)" 1 1)].
Proof.
  split; [lia |]. split; [vm_compute; reflexivity |].
  destruct (renumbering_after_dispatch 1 2 threeRequests fourSessions
              itemB [itemC]) as (q' & effects & Hrun & Hw & _ & Heff).
  - lia.
  - vm_compute; reflexivity.
  - exists q', effects. split; [exact Hrun |]. split; [exact Hw |].
    rewrite Heff. vm_compute. reflexivity.
Defined.

(** C4, where the wording differs: a waiter whose session has left the
    session store (here C, swept before A completes) stays on the wait list
    and moves up, but no card is sent for it. *)
Lemma waiter_without_session_not_notified :
  let sessions : Sessions := base.delete "s_c" fourSessions in
  let q := state (exec threeRequests (start 1 2)) in
  waiting q = [itemB; itemC] ∧
  waiting (complete sessions q).1 = [itemC] ∧
  ∀ cid summary position total,
    UpdateCard cid (QueueCard summary position total) ∉ (complete sessions q).2.
Proof.
  intros sessions q.
  assert (Heff : (complete sessions q).2 =
            [UpdateCard "card_b" (ProgressCard "a blue whale"); Execute "s_b" svc])
    by (vm_compute; reflexivity).
  split; [vm_compute; reflexivity |]. split; [vm_compute; reflexivity |].
  intros cid summary position total Hin. rewrite Heff in Hin.
  apply elem_of_cons in Hin as [Hin | Hin]; [discriminate |].
  apply elem_of_cons in Hin as [Hin | Hin]; [discriminate |].
  by apply elem_of_nil in Hin.
Qed.

End GenerationQueueProps.

(** ** Encrypted LRU cache *)

Module EncryptedLRUCacheProps.

Import EncryptedLRUCache.

(** *** The entry map *)

Lemma Map_get_delete_eq (key : string) (m : EntryMap) :
  Map_get key (Map_delete key m) = None.
Proof.
  induction m as [| [k e] m IH]; simpl; [done |].
  destruct (decide (k = key)) as [-> | Hne]; [done |].
  simpl. by destruct (decide (k = key)).
Qed.

Lemma Map_get_delete_ne (key other : string) (m : EntryMap) :
  other ≠ key -> Map_get other (Map_delete key m) = Map_get other m.
Proof.
  intros Hne. induction m as [| [k e] m IH]; simpl; [done |].
  destruct (decide (k = key)) as [-> | Hk].
  - by destruct (decide (key = other)) as [-> | _].
  - simpl. by rewrite IH.
Qed.

Lemma Map_get_set_eq (key : string) (entry : CacheEntry) (m : EntryMap) :
  Map_get key (Map_set key entry m) = Some entry.
Proof.
  induction m as [| [k e] m IH]; simpl.
  - by destruct (decide (key = key)).
  - destruct (decide (k = key)) as [-> | Hne]; simpl.
    + by destruct (decide (key = key)).
    + by destruct (decide (k = key)).
Qed.

Lemma Map_get_set_ne (key other : string) (entry : CacheEntry) (m : EntryMap) :
  other ≠ key -> Map_get other (Map_set key entry m) = Map_get other m.
Proof.
  intros Hne. induction m as [| [k e] m IH]; simpl.
  - by destruct (decide (key = other)) as [-> | _].
  - destruct (decide (k = key)) as [-> | Hk]; simpl.
    + by destruct (decide (key = other)) as [-> | _].
    + by rewrite IH.
Qed.

Lemma Map_get_elem_of (key : string) (entry : CacheEntry) (m : EntryMap) :
  Map_get key m = Some entry -> (key, entry) ∈ m.
Proof.
  induction m as [| [k e] m IH]; simpl; [done |].
  destruct (decide (k = key)) as [-> | Hne].
  - intros [= ->]. apply list_elem_of_here.
  - intros Hget. apply list_elem_of_further. by apply IH.
Qed.

Lemma Map_get_None (key : string) (m : EntryMap) :
  Map_get key m = None <-> key ∉ keys m.
Proof.
  unfold keys. induction m as [| [k e] m IH]; simpl.
  - split; [intros _; apply not_elem_of_nil | done].
  - rewrite not_elem_of_cons. destruct (decide (k = key)) as [-> | Hne].
    + split; [done | intros [Hne _]; done].
    + rewrite IH. split; [intros Hm; split; [done | done] | intros [_ Hm]; done].
Qed.

Lemma Map_set_fresh (key : string) (entry : CacheEntry) (m : EntryMap) :
  Map_get key m = None -> Map_set key entry m = m ++ [(key, entry)].
Proof.
  induction m as [| [k e] m IH]; simpl; [done |].
  destruct (decide (k = key)) as [-> | Hne]; [done |].
  intros Hget. by rewrite IH.
Qed.

(** Delete and insert again, as [get] does: the key moves to the end. *)
Lemma Map_set_after_delete (key : string) (entry : CacheEntry) (m : EntryMap) :
  Map_set key entry (Map_delete key m) = Map_delete key m ++ [(key, entry)].
Proof. apply Map_set_fresh, Map_get_delete_eq. Qed.

Lemma Map_delete_sublist (key : string) (m : EntryMap) :
  Map_delete key m `sublist_of` m.
Proof.
  induction m as [| [k e] m IH]; simpl; [done |].
  destruct (decide (k = key)); [by apply sublist_cons | by apply sublist_skip].
Qed.

Lemma Map_delete_absent (key : string) (m : EntryMap) :
  Map_get key m = None -> Map_delete key m = m.
Proof.
  induction m as [| [k e] m IH]; simpl; [done |].
  destruct (decide (k = key)) as [-> | Hne]; [done |].
  intros Hget. by rewrite IH.
Qed.

Lemma Map_delete_app (key : string) (m1 m2 : EntryMap) :
  Map_delete key (m1 ++ m2) = Map_delete key m1 ++ Map_delete key m2.
Proof.
  induction m1 as [| [k e] m1 IH]; simpl; [done |].
  destruct (decide (k = key)); [done |]. simpl. by rewrite IH.
Qed.

Lemma Map_delete_idem (key : string) (m : EntryMap) :
  Map_delete key (Map_delete key m) = Map_delete key m.
Proof. apply Map_delete_absent, Map_get_delete_eq. Qed.

(** In a map (one entry per key), deleting the first key leaves the tail:
    this is the step of the eviction loop. *)
Lemma Map_delete_first (k : string) (e : CacheEntry) (m : EntryMap) :
  NoDup (keys ((k, e) :: m)) -> Map_delete k ((k, e) :: m) = m.
Proof.
  unfold keys. simpl. intros [Hnotin _]%NoDup_cons.
  destruct (decide (k = k)); [| done].
  by apply Map_delete_absent, Map_get_None.
Qed.

Lemma Map_delete_present_length (key : string) (entry : CacheEntry) (m : EntryMap) :
  Map_get key m = Some entry -> (length (Map_delete key m) < length m)%nat.
Proof.
  induction m as [| [k e] m IH]; simpl; [done |].
  destruct (decide (k = key)) as [-> | Hne].
  - intros _. pose proof (sublist_length _ _ (Map_delete_sublist key m)). lia.
  - intros Hget. simpl. specialize (IH Hget). lia.
Qed.


(** *** The eviction loop *)

Lemma evict_sublist (limit : Z) (m m' : EntryMap) :
  evict limit m = Some m' -> m' `sublist_of` m.
Proof.
  revert m'. induction m as [| x m IH]; intros m'; simpl.
  - case_decide; [done | by intros [= <-]].
  - case_decide.
    + intros Hev. apply sublist_cons. by apply IH.
    + by intros [= <-].
Qed.

Lemma evict_below_limit (limit : Z) (m m' : EntryMap) :
  evict limit m = Some m' -> Z.of_nat (length m') < limit.
Proof.
  revert m'. induction m as [| x m IH]; intros m'; simpl.
  - case_decide; [done |]. intros [= <-]. simpl. lia.
  - case_decide.
    + apply IH.
    + intros [= <-]. simpl. lia.
Qed.

(** With a positive limit the loop terminates. *)
Lemma evict_terminates (limit : Z) (m : EntryMap) :
  1 <= limit -> ∃ m', evict limit m = Some m'.
Proof.
  intros Hpos. induction m as [| x m IH]; simpl.
  - case_decide; [lia | by eexists].
  - case_decide; [done | by eexists].
Qed.

Lemma evict_room (limit : Z) (m : EntryMap) :
  Z.of_nat (length m) < limit -> evict limit m = Some m.
Proof.
  intros Hroom. destruct m as [| x m]; simpl in *.
  - case_decide; [lia | done].
  - case_decide; [lia | done].
Qed.


(** *** Recency order *)





(** *** What the cache relies on from the platform *)

Section Contracts.

Context {T : Type} {platform : Platform T}.

(** *** Single operations *)

Lemma decrypt_encrypt (key nonce : Buffer) (plaintext : string) :
  hex_roundtrip -> seal_then_open ->
  decrypt key (encrypt key nonce plaintext).1.1 (encrypt key nonce plaintext).1.2
    (encrypt key nonce plaintext).2 = Return plaintext.
Proof.
  intros Hhex Hopen. unfold decrypt, encrypt.
  specialize (Hopen key nonce plaintext).
  destruct (aes256gcm_seal key nonce plaintext) as [encrypted tag].
  simpl in *. by rewrite !Hhex.
Qed.

(** [set] returns as soon as the limit is positive. *)
Lemma set_returns (key : string) (value : T) (nonce : Buffer) (now : Z) (c : Cache) :
  1 <= maxSize c ->
  ∃ r c', set key value nonce now c = Some (r, c') ∧
          maxSize c' = maxSize c ∧ ttlMs c' = ttlMs c ∧
          encryptKey c' = encryptKey c.
Proof.
  intros Hpos. unfold set.
  destruct (evict_terminates (maxSize c) (Map_delete key (store c)) Hpos)
    as [m ->].
  destruct (JSON_stringify value) as [plaintext | err].
  - destruct (encrypt (encryptKey c) nonce plaintext) as [[ct ivHex] tag].
    by eexists _, _.
  - by eexists _, _.
Qed.

(** A call of [set] that returns shows that the limit is positive. *)
Lemma set_returned_positive (key : string) (value : T) (nonce : Buffer)
    (now : Z) (c : Cache) (r : Completion unit) (c' : Cache) :
  set key value nonce now c = Some (r, c') -> 1 <= maxSize c.
Proof.
  unfold set.
  destruct (evict (maxSize c) (Map_delete key (store c))) as [m |] eqn:Hev;
    [| done].
  intros _. apply evict_below_limit in Hev. lia.
Qed.

(** The shape of the store after a [set] that did not throw. *)
Lemma set_stored (key : string) (value : T) (nonce : Buffer) (now : Z)
    (c c' : Cache) :
  set key value nonce now c = Some (Return (), c') ->
  ∃ (m : EntryMap) (plaintext : string),
    evict (maxSize c) (Map_delete key (store c)) = Some m ∧
    JSON_stringify value = Return plaintext ∧
    c' = with_store c
           (Map_set key
              {| ciphertext := (encrypt (encryptKey c) nonce plaintext).1.1;
                 iv := (encrypt (encryptKey c) nonce plaintext).1.2;
                 authTag := (encrypt (encryptKey c) nonce plaintext).2;
                 createdAt := now; lastAccessedAt := now |} m).
Proof.
  unfold set.
  destruct (evict (maxSize c) (Map_delete key (store c))) as [m |]; [| done].
  destruct (JSON_stringify value) as [plaintext | err]; [| done].
  destruct (encrypt (encryptKey c) nonce plaintext) as [[ct ivHex] tag]
    eqn:Henc.
  intros [= <-]. exists m, plaintext. by rewrite Henc.
Qed.

(** [get] never hands an exception to its caller. *)
Lemma get_returns (key : string) (now now' : Z) (c : Cache) :
  ∃ r c', get key now now' c = (Return r, c').
Proof.
  unfold get. destruct (Map_get key (store c)) as [entry |]; [| by eexists _, _].
  case_decide; [by eexists _, _ |].
  simpl.
  destruct (andThen _ _); by eexists _, _.
Qed.

(** C5.  A value that survives [JSON.stringify] and [JSON.parse], stored
    with [set] in a cache with a positive size limit and whatever key was
    derived from the secret, is returned by a [get] of the same key made
    before the entry's time to live is over ([now'] is the time of the
    [get], [now] the time of the [set]).  The platform is assumed to decode
    its own hex strings and to open what it sealed. *)
Theorem set_then_get_roundtrip
    (key : string) (value : T) (nonce : Buffer) (now now' now'' : Z) (c : Cache) :
  hex_roundtrip ->
  seal_then_open ->
  serializable value ->
  1 <= maxSize c ->
  now' - now <= ttlMs c ->
  ∃ c1 c2,
    set key value nonce now c = Some (Return (), c1) ∧
    get key now' now'' c1 = (Return (Some value), c2).
Proof.
  intros Hhex Hopen (text & Hstr & Hparse) Hpos Hfresh.
  destruct (evict_terminates (maxSize c) (Map_delete key (store c)) Hpos)
    as [m Hev].
  pose proof (decrypt_encrypt (encryptKey c) nonce text Hhex Hopen) as Hdec.
  unfold set. rewrite Hev, Hstr.
  destruct (encrypt (encryptKey c) nonce text) as [[ct ivHex] tag].
  simpl in Hdec.
  eexists _, _. split; [reflexivity |].
  unfold get. simpl. rewrite Map_get_set_eq. simpl.
  case_decide; [lia |].
  rewrite Hdec. simpl. by rewrite Hparse.
Qed.

(** C8.  The claim fails for a tag that was cut.  [decrypt] makes its
    decipher without the [authTagLength] option, so a stored tag cut to 4,
    8 or 12 to 15 bytes still opens its entry: where [get] of a key returns
    a value, [get] of the same key after the stored tag was cut to such a
    length returns the same value, and the entry stays in the store with
    its cut tag, instead of being answered with [undefined] and deleted. *)
Theorem cut_tag_is_still_a_hit
    (key : string) (now now' : Z) (c c' : Cache) (entry : CacheEntry)
    (value : T) (n : nat) :
  hex_roundtrip ->
  open_checks_given_bytes ->
  Map_get key (store c) = Some entry ->
  get key now now' c = (Return (Some value), c') ->
  acceptedTagLength n = true ->
  (n < length (fromHex (authTag entry)))%nat ->
  let damaged := with_store c (Map_set key (cutTag n entry) (store c)) in
  fromHex (authTag (cutTag n entry)) ≠ fromHex (authTag entry) ∧
  ∃ c'',
    get key now now' damaged = (Return (Some value), c'') ∧
    Map_get key (store c'')
      = Some {| ciphertext := ciphertext entry; iv := iv entry;
                authTag := authTag (cutTag n entry);
                createdAt := createdAt entry; lastAccessedAt := now' |}.
Proof.
  intros Hhex Hcut Hentry Hget Haccepted Hshorter damaged. split.
  - simpl. rewrite Hhex. intros Hsame.
    apply (f_equal length) in Hsame. rewrite length_take in Hsame. lia.
  - revert Hget. unfold get. rewrite Hentry. subst damaged. simpl.
    rewrite Map_get_set_eq. simpl.
    case_decide as Hage; [done |]. unfold decrypt. rewrite Hhex.
    destruct (aes256gcm_open (encryptKey c) (fromHex (iv entry))
                (fromHex (authTag entry)) (fromHex (ciphertext entry)))
      as [plaintext | err] eqn:Hopen; simpl; [| done].
    rewrite (Hcut _ _ _ _ plaintext n Hopen Haccepted) by lia. simpl.
    destruct (JSON_parse plaintext) as [v | err]; [| done].
    intros [= -> _]. eexists. split; [reflexivity |].
    simpl. by rewrite Map_get_set_eq.
Qed.

(** *** Histories *)

(** Every operation that returns leaves the parameters of the cache alone. *)
Lemma apply_params (op : Op) (c c' : Cache) :
  apply op c = Some c' ->
  maxSize c' = maxSize c ∧ ttlMs c' = ttlMs c ∧ encryptKey c' = encryptKey c.
Proof.
  destruct op as [key value nonce now | key now now' | key now | key | | now];
    simpl.
  - unfold set.
    destruct (evict (maxSize c) (Map_delete key (store c))) as [m |]; [| done].
    destruct (JSON_stringify value) as [plaintext | err].
    + destruct (encrypt (encryptKey c) nonce plaintext) as [[ct ivHex] tag].
      by intros [= <-].
    + by intros [= <-].
  - unfold get. destruct (Map_get key (store c)) as [entry |];
      [| by intros [= <-]].
    case_decide; [by intros [= <-] |]. simpl.
    destruct (andThen _ _); by intros [= <-].
  - unfold has. destruct (Map_get key (store c)) as [entry |];
      [| by intros [= <-]].
    case_decide; by intros [= <-].
  - by intros [= <-].
  - by intros [= <-].
  - by intros [= <-].
Qed.

Lemma apply_returns (op : Op) (c : Cache) :
  1 <= maxSize c -> ∃ c', apply op c = Some c'.
Proof.
  intros Hpos.
  destruct op as [key value nonce now | key now now' | key now | key | | now];
    simpl; try by eexists.
  destruct (set_returns key value nonce now c Hpos) as (r & c' & -> & _).
  by eexists.
Qed.

(** With a positive limit every history runs to its end. *)
Lemma exec_returns (ops : list Op) :
  ∀ c, 1 <= maxSize c -> ∃ c', exec ops c = Some c'.
Proof.
  induction ops as [| op ops IH]; intros c Hpos; simpl; [by eexists |].
  destruct (apply_returns op c Hpos) as [c1 Hop]. rewrite Hop.
  apply IH. apply apply_params in Hop as (-> & _). done.
Qed.

Lemma exec_params (ops : list Op) :
  ∀ c c', exec ops c = Some c' ->
    maxSize c' = maxSize c ∧ ttlMs c' = ttlMs c ∧ encryptKey c' = encryptKey c.
Proof.
  induction ops as [| op ops IH]; intros c c'; simpl; [by intros [= <-] |].
  destruct (apply op c) as [c1 |] eqn:Hop; [| done].
  intros Hexec. apply IH in Hexec as (-> & -> & ->).
  by apply (apply_params op).
Qed.


Lemma apply_StoreChange (op : Op) (c c' : Cache) :
  apply op c = Some c' -> StoreChange (store c) op (store c').
Proof.
  destruct op as [key value nonce now | key now now' | key now | key | | now];
    simpl.
  - unfold set.
    destruct (evict (maxSize c) (Map_delete key (store c))) as [m |] eqn:Hev;
      [| done].
    pose proof (evict_sublist _ _ _ Hev) as Hsub.
    destruct (JSON_stringify value) as [plaintext | err].
    + destruct (encrypt (encryptKey c) nonce plaintext) as [[ct ivHex] tag].
      intros [= <-]. simpl. rewrite Map_set_fresh.
      * by apply change_set.
      * apply Map_get_None. intros Hin.
        pose proof (Map_get_delete_eq key (store c)) as Hgone.
        apply Map_get_None in Hgone. apply Hgone.
        apply (elem_of_sublist _ _ _ Hin). unfold keys.
        by apply fmap_sublist.
    + intros [= <-]. simpl. apply change_shrink.
      etrans; [exact Hsub | apply Map_delete_sublist].
  - unfold get. destruct (Map_get key (store c)) as [entry |] eqn:Hget;
      [| intros [= <-]; by apply change_shrink].
    case_decide.
    { intros [= <-]. apply change_shrink, Map_delete_sublist. }
    simpl. rewrite Map_set_after_delete.
    destruct (andThen _ _).
    + intros [= <-]. simpl. by eapply change_get.
    + intros [= <-]. simpl. apply change_shrink.
      rewrite Map_delete_app, Map_delete_idem. simpl.
      case_decide; [| done]. rewrite app_nil_r. apply Map_delete_sublist.
  - unfold has. destruct (Map_get key (store c)) as [entry |];
      [| intros [= <-]; by apply change_shrink].
    case_decide; intros [= <-]; apply change_shrink;
      [apply Map_delete_sublist | done].
  - intros [= <-]. apply change_shrink, Map_delete_sublist.
  - intros [= <-]. apply change_shrink, sublist_nil_l.
  - intros [= <-]. apply change_shrink. simpl. apply sublist_filter.
Qed.

(** *** The capacity bound *)



(** *** Time to live *)

Lemma born_sublist (key : string) (t0 : Z) (m m' : EntryMap) :
  m' `sublist_of` m -> born key t0 m -> born key t0 m'.
Proof. intros Hsub Hborn entry Hin. apply Hborn. by eapply elem_of_sublist. Qed.

Lemma born_delete (key : string) (t0 : Z) (m : EntryMap) :
  born key t0 (Map_delete key m).
Proof.
  intros entry Hin.
  pose proof (Map_get_delete_eq key m) as Hgone. apply Map_get_None in Hgone.
  exfalso. apply Hgone. unfold keys.
  by apply (list_elem_of_fmap_2 fst) in Hin.
Qed.

Lemma born_apply (key : string) (t0 : Z) (op : Op) (c c' : Cache) :
  leaves_alone key op -> apply op c = Some c' ->
  born key t0 (store c) -> born key t0 (store c').
Proof.
  intros Halone Hop Hborn.
  destruct (apply_StoreChange op c c' Hop)
    as [op m' Hsub | k value nonce now m' entry Hsub Hc Ha
        | k now now' entry entry' Hget Hc Ha].
  - by eapply born_sublist.
  - simpl in Halone. intros e [Hin | Hin]%elem_of_app.
    + apply Hborn. eapply elem_of_sublist; [exact Hin |].
      etrans; [exact Hsub | apply Map_delete_sublist].
    + apply list_elem_of_singleton in Hin. congruence.
  - intros e [Hin | Hin]%elem_of_app.
    + apply Hborn. eapply elem_of_sublist; [exact Hin |].
      apply Map_delete_sublist.
    + apply list_elem_of_singleton in Hin. injection Hin as <- ->.
      rewrite Hc. apply Hborn. by apply Map_get_elem_of.
Qed.

Lemma born_exec (key : string) (t0 : Z) (ops : list Op) :
  ∀ c c', Forall (leaves_alone key) ops -> exec ops c = Some c' ->
    born key t0 (store c) -> born key t0 (store c').
Proof.
  induction ops as [| op ops IH]; intros c c' Halone; simpl;
    [by intros [= <-] |].
  apply Forall_cons in Halone as [Hop Hops].
  destruct (apply op c) as [c1 |] eqn:Happly; [| done].
  intros Hexec Hborn. apply (IH c1 c' Hops Hexec).
  by apply (born_apply key t0 op c c1).
Qed.

(** C7.  After [set(key, ...)] at time [t0], and after any further
    operations other than a new [set] of the same key (reads of the key
    with [get] and [has] at any times among them), a [get(key)] at a time
    [t] with [t - t0 > ttl] answers [undefined], and the key is not in the
    store afterwards: the time to live runs from [createdAt], which no
    read changes. *)
Theorem ttl_counts_from_creation
    (key : string) (value : T) (nonce : Buffer) (t0 : Z) (c c1 : Cache)
    (ops : list Op) (t t' : Z) :
  set key value nonce t0 c = Some (Return (), c1) ->
  Forall (leaves_alone key) ops ->
  t - t0 > ttlMs c ->
  ∃ c2 c3,
    exec ops c1 = Some c2 ∧
    get key t t' c2 = (Return None, c3) ∧
    Map_get key (store c3) = None.
Proof.
  intros Hset Halone Hlate.
  pose proof (set_returned_positive _ _ _ _ _ _ _ Hset) as Hpos.
  destruct (set_stored _ _ _ _ _ _ Hset) as (m & plaintext & Hev & _ & ->).
  set (c1 := with_store c _) in *.
  destruct (exec_returns ops c1 Hpos) as [c2 Hexec].
  assert (Hborn1 : born key t0 (store c1)).
  { subst c1. simpl. rewrite Map_set_fresh.
    - intros e [Hin | Hin]%elem_of_app.
      + eapply born_delete. eapply elem_of_sublist; [exact Hin |].
        by eapply evict_sublist.
      + apply list_elem_of_singleton in Hin. by injection Hin as ->.
    - apply Map_get_None. intros Hin.
      pose proof (Map_get_delete_eq key (store c)) as Hgone.
      apply Map_get_None in Hgone. apply Hgone.
      apply (elem_of_sublist _ _ _ Hin). unfold keys.
      apply fmap_sublist. by eapply evict_sublist. }
  pose proof (born_exec key t0 ops c1 c2 Halone Hexec Hborn1) as Hborn2.
  pose proof (exec_params ops c1 c2 Hexec) as (_ & Httl & _).
  exists c2. unfold get.
  destruct (Map_get key (store c2)) as [entry |] eqn:Hget.
  - apply Map_get_elem_of, Hborn2 in Hget as Hcreated. rewrite Hcreated, Httl.
    subst c1. simpl. case_decide; [| lia].
    eexists. split; [done |]. split; [reflexivity |].
    simpl. apply Map_get_delete_eq.
  - by exists c2.
Qed.

(** *** Eviction follows the order of access *)








End Contracts.

(** *** The plain platform meets the contracts *)

#[local] Existing Instance plainPlatform.

Lemma plain_hex_roundtrip : hex_roundtrip (T := string).
Proof. intros b. apply String.list_byte_of_string_of_list_byte. Qed.

Lemma plainTag_length (key nonce encrypted : Buffer) :
  length (plainTag key nonce encrypted) = 16%nat.
Proof.
  unfold plainTag. rewrite length_take, !length_app, length_replicate. lia.
Qed.

Lemma plain_seal_then_open : seal_then_open (T := string).
Proof.
  intros key nonce plaintext. simpl.
  rewrite plainTag_length, firstn_all2 by (rewrite plainTag_length; lia).
  simpl. rewrite decide_True by done.
  by rewrite String.string_of_list_byte_of_string.
Qed.

Lemma plain_open_checks_given_bytes : open_checks_given_bytes (T := string).
Proof.
  intros key nonce tag encrypted plaintext n. simpl.
  destruct (acceptedTagLength (length tag)); [| done].
  case_decide as Htag; [| done]. intros Hopen Haccepted Hn.
  rewrite length_take, Nat.min_l, Haccepted by done.
  rewrite decide_True; [done |].
  rewrite Htag at 1. rewrite take_take. f_equal. lia.
Qed.

Lemma plain_open_only_cut_of_genuine : open_only_cut_of_genuine (T := string).
Proof.
  intros key nonce tag fullTag encrypted plaintext opened. simpl.
  intros [= <- <-].
  destruct (acceptedTagLength (length tag)) eqn:Haccepted; [| done].
  case_decide as Htag; [| done]. intros _.
  by exists (length tag).
Qed.

Lemma set_then_get_roundtrip_witness :
  ∃ c1 c2,
    set "ou_1" "sk-AAA" plainNonce 10 (new plainOptions) = Some (Return (), c1) ∧
    get "ou_1" 1010 1011 c1 = (Return (Some "sk-AAA"), c2).
Proof.
  apply (set_then_get_roundtrip "ou_1" "sk-AAA" plainNonce 10 1010 1011
           (new plainOptions)).
  - exact plain_hex_roundtrip.
  - exact plain_seal_then_open.
  - exists "sk-AAA". split; reflexivity.
  - simpl. lia.
  - simpl. lia.
Defined.

Lemma cut_tag_is_still_a_hit_witness :
  ∃ c'',
    get "ou_1" 20 21 plainCut = (Return (Some "sk-AAA"), c'') ∧
    Map_get "ou_1" (store c'')
      = Some {| ciphertext := "sk-AAA"; iv := "0123456789abcdef";
                authTag := "sk-A"; createdAt := 10; lastAccessedAt := 21 |}.
Proof.
  destruct (cut_tag_is_still_a_hit "ou_1" 20 21 plainStored
              (with_store plainStored
                 [("ou_1",
                   {| ciphertext := "sk-AAA"; iv := "0123456789abcdef";
                      authTag := "sk-AAA0123456789"; createdAt := 10;
                      lastAccessedAt := 21 |})])
              plainEntry "sk-AAA" 4) as [_ Hhit].
  - exact plain_hex_roundtrip.
  - exact plain_open_checks_given_bytes.
  - reflexivity.
  - reflexivity.
  - reflexivity.
  - simpl. lia.
  - exact Hhit.
Defined.

Lemma ttl_counts_from_creation_witness :
  ∃ c2 c3,
    exec plainReads plainStored = Some c2 ∧
    get "ou_1" 1011 1012 c2 = (Return None, c3) ∧
    Map_get "ou_1" (store c3) = None.
Proof.
  apply (ttl_counts_from_creation "ou_1" "sk-AAA" plainNonce 10
           (new plainOptions) plainStored plainReads 1011 1012).
  - vm_compute. reflexivity.
  - repeat constructor.
  - simpl. lia.
Defined.


(** Recency, not insertion order: a read of the oldest key saves it, and
    the next [set] evicts the key inserted second. *)
Lemma read_saves_oldest_key :
  ∃ c,
    exec [OpSet "ou_1" "sk-AAA" plainNonce 10; OpSet "ou_2" "sk-BBB" plainNonce 20;
          OpGet "ou_1" 30 31; OpSet "ou_3" "sk-CCC" plainNonce 40]
      (new plainOptions) = Some c ∧
    keys (store c) = ["ou_1"; "ou_3"].
Proof. eexists. split; vm_compute; reflexivity. Qed.

End EncryptedLRUCacheProps.

(** ** Generation queue: accounting, bounds and waiting time *)

Module QueueLedgerProps.

Import SessionManager GenerationQueue QueueLedger GenerationQueueProps.

Lemma processNextLoop_running (sessions : Sessions) (w : list QueueItem) :
  ∀ q : State,
    running (processNextLoop sessions q w).1
      = running q + Z.of_nat (length (executed (processNextLoop sessions q w).2)).
Proof.
  induction w as [| next rest IH]; intros q; simpl; [lia |].
  destruct (decide (running q < maxConcurrency q)) as [Hlt | Hge]; [| simpl; lia].
  specialize (IH (set_running (set_waiting q rest) (running q + 1))).
  destruct (processNextLoop sessions
              (set_running (set_waiting q rest) (running q + 1)) rest)
    as [q2 e3].
  simpl in IH |- *.
  rewrite !executed_app, executed_updateToProgress. simpl.
  unfold notifyQueuePositions. rewrite executed_notifyLoop. simpl. lia.
Qed.

Lemma exec_history_app (before after : list (Sessions * Event)) :
  ∀ h, exec (before ++ after) h = exec after (exec before h).
Proof. induction before as [| input before IH]; intros h; simpl; [done | apply IH]. Qed.

Lemma tally_book (trace : list (Sessions * Event)) :
  ∀ (l : Ledger) (h : History),
    book l = state h -> book (tally trace l) = state (exec trace h).
Proof.
  induction trace as [| [sessions [sid svc now |]] trace IH]; intros l h Hbook;
    simpl; [done | |]; apply IH; rewrite Hbook.
  - by destruct (enqueue sessions sid svc now (state h)) as [[result q'] e].
  - by destruct (complete sessions (state h)) as [q' e].
Qed.

(** What a completion does in a state that a history can reach. *)
Lemma complete_reachable (maxC maxQ : Z) (h : History) (sessions : Sessions) :
  Inv maxC maxQ h ->
  match waiting (state h) with
  | [] => complete sessions (state h)
            = (set_running (state h) (running (state h) - 1), [])
  | next :: rest =>
      complete sessions (state h)
        = (set_waiting (state h) rest,
           updateToProgress sessions (sessionId next)
             ++ [Execute (sessionId next) (service next)]
             ++ notifyLoop sessions (Z.of_nat (length rest)) 0 rest)
  end.
Proof.
  intros [Hc _ _ Hbusy _]. unfold complete, processNext. simpl.
  destruct (waiting (state h)) as [| next rest] eqn:Hw; simpl.
  - unfold set_waiting, set_running. simpl. by rewrite Hw.
  - assert (Hfull : running (state h) = maxC) by by apply Hbusy.
    pose proof (processNextLoop_one_slot sessions
                  (set_running (state h) (running (state h) - 1)) next rest)
      as Hone.
    simpl in Hone. rewrite Hone by lia.
    unfold set_waiting, set_running. simpl. do 2 f_equal. lia.
Qed.

(** X1.  In every history of a queue built with a non-negative
    [maxQueueLength], the wait list never holds more than
    [maxQueueLength] jobs. *)
Theorem waiting_within_maxQueueLength
    (maxC maxQ : Z) (trace : list (Sessions * Event)) :
  0 <= maxQ ->
  Z.of_nat (length (waiting (state (exec trace (start maxC maxQ)))))
    <= maxQueueLength (state (exec trace (start maxC maxQ))).
Proof.
  intros Hpos.
  assert (Hgen : ∀ h,
    maxQueueLength (state h) = maxQ ->
    Z.of_nat (length (waiting (state h))) <= maxQ ->
    maxQueueLength (state (exec trace h)) = maxQ ∧
    Z.of_nat (length (waiting (state (exec trace h)))) <= maxQ).
  { induction trace as [| [sessions [sid svc now |]] trace IH];
      intros h Hq Hlen; simpl; [done | |]; apply IH.
    - unfold enqueue. repeat case_decide; simpl; done.
    - unfold enqueue. repeat case_decide; simpl; try done.
      rewrite length_app. simpl. lia.
    - unfold complete, processNext. simpl.
      pose proof (processNextLoop_sound sessions (waiting (state h))
                    (set_running (state h) (running (state h) - 1)))
        as (_ & Hq' & _). simpl in Hq'.
      destruct (processNextLoop _ _ _) as [q' e]. simpl in *. congruence.
    - unfold complete, processNext. simpl.
      pose proof (processNextLoop_sound sessions (waiting (state h))
                    (set_running (state h) (running (state h) - 1)))
        as (_ & _ & _ & _ & Hjobs). simpl in Hjobs.
      destruct (processNextLoop _ _ _) as [q' e]. simpl in *.
      apply (f_equal length) in Hjobs.
      rewrite length_app, !length_map in Hjobs. lia. }
  destruct (Hgen (start maxC maxQ)) as [Hq Hlen]; simpl; [done | lia |].
  by rewrite Hq.
Qed.

(** X2.  No accepted request is lost, started twice or started out of
    turn: in every history the jobs handed to the executor, in the order
    they were handed over, followed by the jobs on the wait list are exactly
    the requests that [enqueue] accepted, in the order it accepted them; and
    [running] is the number of jobs started minus the number of
    completions.  The queue of the ledger is the queue of the history. *)
Theorem accepted_jobs_accounted_for
    (maxC maxQ : Z) (trace : list (Sessions * Event)) :
  let l := tally trace (open maxC maxQ) in
  started l ++ map job (waiting (book l)) = accepted l ∧
  running (book l) = Z.of_nat (length (started l)) - completed l ∧
  book l = state (exec trace (start maxC maxQ)).
Proof.
  assert (Hgen : ∀ l : Ledger,
    started l ++ map job (waiting (book l)) = accepted l ->
    running (book l) = Z.of_nat (length (started l)) - completed l ->
    started (tally trace l) ++ map job (waiting (book (tally trace l)))
      = accepted (tally trace l) ∧
    running (book (tally trace l))
      = Z.of_nat (length (started (tally trace l))) - completed (tally trace l)).
  { induction trace as [| [sessions [sid svc now |]] trace IH];
      intros l Hacc Hrun; [done | |]; simpl tally; apply IH.
    - unfold record, enqueue. rewrite <- Hacc.
      case_decide as Hfree; [| case_decide as Hfull]; simpl.
      + destruct Hfree as [_ Hempty].
        apply nil_length_inv in Hempty. rewrite Hempty.
        rewrite executed_app, executed_updateToProgress. simpl.
        by rewrite !app_nil_r.
      + by rewrite !app_nil_r.
      + by rewrite map_app, !app_nil_r, app_assoc.
    - unfold record, enqueue.
      case_decide as Hfree; [| case_decide as Hfull]; simpl;
        rewrite ?executed_app, ?executed_updateToProgress, ?length_app;
        simpl; lia.
    - unfold record, complete, processNext.
      pose proof (processNextLoop_sound sessions (waiting (book l))
                    (set_running (book l) (running (book l) - 1)))
        as (_ & _ & _ & _ & Hjobs).
      simpl in Hjobs |- *.
      destruct (processNextLoop _ _ _) as [q' e]. simpl in *.
      by rewrite <- app_assoc, Hjobs.
    - unfold record, complete, processNext.
      pose proof (processNextLoop_running sessions (waiting (book l))
                    (set_running (book l) (running (book l) - 1))) as Hr.
      simpl in Hr |- *.
      destruct (processNextLoop _ _ _) as [q' e]. simpl in *.
      rewrite length_app. lia. }
  intros l. subst l.
  destruct (Hgen (open maxC maxQ)) as [Hacc Hrun]; [done | done |].
  split; [exact Hacc |]. split; [exact Hrun |]. by apply tally_book.
Qed.

Lemma completions_cons (input : Sessions * Event) (trace : list (Sessions * Event)) :
  completions (input :: trace)
    = ((if isComplete input then 1 else 0) + completions trace)%nat.
Proof. unfold completions. simpl. by destruct (isComplete input). Qed.

(** A waiter keeps its place in an [enqueue] and moves up by one in a
    completion. *)
Lemma waiter_moves_up (maxC maxQ : Z) (after : list (Sessions * Event))
    (item : QueueItem) :
  ∀ (h : History) (i : nat),
    Inv maxC maxQ h ->
    waiting (state h) !! i = Some item ->
    (completions after <= i)%nat ->
    waiting (state (exec after h)) !! (i - completions after)%nat = Some item.
Proof.
  induction after as [| [sessions ev] after IH]; intros h i Hinv Hi Hk.
  - simpl. unfold completions. simpl. by rewrite Nat.sub_0_r.
  - rewrite completions_cons in Hk |- *. unfold isComplete in Hk |- *.
    pose proof (Inv_step maxC maxQ (sessions, ev) h Hinv) as Hinv'.
    destruct ev as [sid svc now |]; cbn [snd] in Hk |- *; simpl exec.
    + apply (IH _ i Hinv'); [| lia].
      unfold step, enqueue. repeat case_decide; simpl; try done.
      by apply lookup_app_l_Some.
    + replace (i - (1 + completions after))%nat
        with ((i - 1) - completions after)%nat by lia.
      apply (IH _ (i - 1)%nat Hinv'); [| lia].
      unfold step.
      pose proof (complete_reachable maxC maxQ h sessions Hinv) as Hdone.
      destruct (waiting (state h)) as [| next rest] eqn:Hw; [done |].
      rewrite Hdone. simpl.
      destruct i as [| i]; [lia |]. simpl in Hi |- *.
      by rewrite Nat.sub_0_r.
Qed.

(** X3.  The position tells how many completions a waiter has to sit out.
    A job at place [i + 1] of the wait list of a reachable queue is still
    waiting after any further events with at most [i] completions among
    them, [k] completions having moved it up by [k] places; and once [i]
    completions have happened, the next one starts exactly this job. *)
Theorem position_counts_completions
    (maxC maxQ : Z) (before after : list (Sessions * Event))
    (item : QueueItem) (i : nat) :
  0 <= maxC ->
  waiting (state (exec before (start maxC maxQ))) !! i = Some item ->
  (completions after <= i)%nat ->
  waiting (state (exec (before ++ after) (start maxC maxQ)))
    !! (i - completions after)%nat = Some item ∧
  (completions after = i ->
   ∀ sessions,
     executed (complete sessions
                 (state (exec (before ++ after) (start maxC maxQ)))).2
       = [job item]).
Proof.
  intros Hpos Hi Hk. rewrite exec_history_app.
  pose proof (Inv_exec maxC maxQ before _ (Inv_start maxC maxQ Hpos)) as Hinv.
  pose proof (waiter_moves_up maxC maxQ after item _ i Hinv Hi Hk) as Hplace.
  split; [exact Hplace |].
  intros Hall sessions. rewrite Hall, Nat.sub_diag in Hplace.
  pose proof (Inv_exec maxC maxQ after _ Hinv) as Hinv'.
  pose proof (complete_reachable maxC maxQ _ sessions Hinv') as Hdone.
  destruct (waiting (state (exec after (exec before (start maxC maxQ)))))
    as [| next rest]; [done |].
  injection Hplace as ->. rewrite Hdone. simpl.
  rewrite executed_app, executed_updateToProgress. simpl.
  by rewrite executed_notifyLoop.
Qed.

(** X4.  A full wait list rejects, and one completion makes room: in a
    reachable state whose wait list holds [maxQueueLength] jobs (at least
    one), [enqueue] is rejected and changes nothing, while after one job
    completion the same request is accepted at position [maxQueueLength],
    the last place. *)
Theorem full_queue_reopens_after_completion
    (maxC maxQ : Z) (trace : list (Sessions * Event))
    (sessions sessions' : Sessions) (sid : string)
    (svc : ImageGenerationService) (now : Z) :
  0 <= maxC ->
  1 <= maxQ ->
  Z.of_nat (length (waiting (state (exec trace (start maxC maxQ))))) = maxQ ->
  let q := state (exec trace (start maxC maxQ)) in
  let q' := (complete sessions' q).1 in
  enqueue sessions sid svc now q = (Rejected (queueFullReason maxQ), q, []) ∧
  enqueue sessions sid svc now q'
    = (Accepted maxQ, set_waiting q' (waiting q' ++ [mkItem sid svc now]), []).
Proof.
  intros Hpos Hq Hfull q q'.
  pose proof (Inv_exec maxC maxQ trace _ (Inv_start maxC maxQ Hpos)) as Hinv.
  pose proof (complete_reachable maxC maxQ _ sessions' Hinv) as Hdone.
  destruct Hinv as [Hc HmaxQ Hr Hbusy _]. fold q in Hc, HmaxQ, Hr, Hbusy, Hfull, Hdone.
  destruct (waiting q) as [| next rest] eqn:Hw; [simpl in Hfull; lia |].
  assert (Hrun : running q = maxC) by by apply Hbusy.
  split.
  - unfold enqueue. rewrite Hw, HmaxQ.
    case_decide as Hfree; [destruct Hfree as [_ Hlen]; done |].
    case_decide; [done | lia].
  - subst q'. rewrite Hdone. unfold enqueue. simpl. rewrite Hc, HmaxQ.
    case_decide as Hfree; [lia |].
    case_decide as Hfull'; [simpl in Hfull; lia |].
    rewrite length_app. simpl in Hfull |- *. do 3 f_equal. lia.
Qed.

(** X5.  A slot freed with nobody waiting is taken by the next request: in
    a reachable state with an empty wait list a completion only lowers
    [running] by one and sends nothing, and the [enqueue] after it starts
    its job at once (position 0), which brings [running] back. *)
Theorem freed_slot_goes_to_next_request
    (maxC maxQ : Z) (trace : list (Sessions * Event))
    (sessions sessions' : Sessions) (sid : string)
    (svc : ImageGenerationService) (now : Z) :
  0 <= maxC ->
  waiting (state (exec trace (start maxC maxQ))) = [] ->
  let q := state (exec trace (start maxC maxQ)) in
  complete sessions' q = (set_running q (running q - 1), []) ∧
  enqueue sessions sid svc now (complete sessions' q).1
    = (Accepted 0, q, updateToProgress sessions sid ++ [Execute sid svc]).
Proof.
  intros Hpos Hw q.
  pose proof (Inv_exec maxC maxQ trace _ (Inv_start maxC maxQ Hpos)) as Hinv.
  pose proof (complete_reachable maxC maxQ _ sessions' Hinv) as Hdone.
  destruct Hinv as [Hc _ Hr _ _]. fold q in Hc, Hr, Hw, Hdone.
  rewrite Hw in Hdone. split; [exact Hdone |].
  rewrite Hdone. unfold enqueue. simpl. rewrite Hw. simpl.
  case_decide as Hfree; [| exfalso; apply Hfree; split; [lia | done]].
  unfold run, set_running. simpl. do 2 f_equal.
  destruct q as [c m r w]. simpl in *. subst w. f_equal. lia.
Qed.

Lemma notifyLoop_range (sessions : Sessions) (total : Z) (items : list QueueItem) :
  ∀ (i : Z) (cid summary : string) (position shown : Z),
    UpdateCard cid (QueueCard summary position shown)
      ∈ notifyLoop sessions total i items ->
    shown = total ∧ i + 1 <= position <= i + Z.of_nat (length items).
Proof.
  induction items as [| item items IH]; intros i cid summary position shown;
    simpl; [by intros ?%elem_of_nil |].
  intros [Hin | Hin]%elem_of_app.
  - destruct (cardOf sessions (sessionId item)) as [[c s] |];
      [| by apply elem_of_nil in Hin].
    apply list_elem_of_singleton in Hin. injection Hin as -> -> -> ->. lia.
  - apply IH in Hin. lia.
Qed.

(** X6.  No event ever reports a position outside the wait list: every
    queue card sent by a job completion shows a position between 1 and the
    total shown with it, and a call of [enqueue] sends no queue card at
    all. *)
Theorem queue_cards_show_position_within_total
    (sessions : Sessions) (q : State) (cid summary : string)
    (position total : Z) :
  (UpdateCard cid (QueueCard summary position total)
     ∈ (complete sessions q).2 ->
   1 <= position <= total) ∧
  (∀ sid svc now,
     UpdateCard cid (QueueCard summary position total)
       ∉ (enqueue sessions sid svc now q).2).
Proof.
  split.
  - unfold complete, processNext. simpl.
    generalize (set_running q (running q - 1)) as q0.
    generalize (waiting q) as w.
    induction w as [| next rest IH]; intros q0; simpl;
      [by intros ?%elem_of_nil |].
    case_decide; [| by intros ?%elem_of_nil].
    specialize (IH (set_running (set_waiting q0 rest) (running q0 + 1))).
    destruct (processNextLoop sessions
                (set_running (set_waiting q0 rest) (running q0 + 1)) rest)
      as [q2 e3].
    simpl in IH |- *.
    intros [Hin | [Hin | Hin]%elem_of_app]%elem_of_app.
    + apply elem_of_app in Hin as [Hin | Hin].
      * unfold updateToProgress in Hin.
        destruct (cardOf sessions (sessionId next)) as [[c s] |];
          [| by apply elem_of_nil in Hin].
        by apply list_elem_of_singleton in Hin.
      * by apply list_elem_of_singleton in Hin.
    + unfold notifyQueuePositions in Hin. simpl in Hin.
      apply notifyLoop_range in Hin. lia.
    + by apply IH.
  - intros sid svc now. unfold enqueue.
    repeat case_decide; simpl; try apply not_elem_of_nil.
    intros [Hin | Hin]%elem_of_app.
    + unfold updateToProgress in Hin.
      destruct (cardOf sessions sid) as [[c s] |];
        [| by apply elem_of_nil in Hin].
      by apply list_elem_of_singleton in Hin.
    + by apply list_elem_of_singleton in Hin.
Qed.

(** *** The scenario again *)

Lemma waiting_within_maxQueueLength_witness :
  0 <= 2 ∧
  Z.of_nat (length (waiting (state (exec fourRequests (start 1 2)))))
    <= maxQueueLength (state (exec fourRequests (start 1 2))).
Proof.
  split; [lia |].
  apply (waiting_within_maxQueueLength 1 2 fourRequests). lia.
Defined.

Lemma position_counts_completions_witness :
  waiting (state (exec threeRequests (start 1 2))) !! 1%nat = Some itemC ∧
  waiting (state (exec (threeRequests ++ [(fourSessions, EvComplete)])
                    (start 1 2))) !! 0%nat = Some itemC ∧
  executed (complete fourSessions
              (state (exec (threeRequests ++ [(fourSessions, EvComplete)])
                        (start 1 2)))).2 = [job itemC].
Proof.
  assert (Hplace :
    waiting (state (exec threeRequests (start 1 2))) !! 1%nat = Some itemC)
    by (vm_compute; reflexivity).
  destruct (position_counts_completions 1 2 threeRequests
              [(fourSessions, EvComplete)] itemC 1) as [Hup Hnext].
  - lia.
  - exact Hplace.
  - vm_compute. lia.
  - split; [exact Hplace |]. split; [exact Hup |].
    apply Hnext. reflexivity.
Defined.

Lemma full_queue_reopens_after_completion_witness :
  enqueue fourSessions "s_d" svc 4 (state (exec threeRequests (start 1 2)))
    = (Rejected (queueFullReason 2),
       state (exec threeRequests (start 1 2)), []) ∧
  (enqueue fourSessions "s_d" svc 4
     (complete fourSessions (state (exec threeRequests (start 1 2)))).1).1.1
    = Accepted 2.
Proof.
  destruct (full_queue_reopens_after_completion 1 2 threeRequests
              fourSessions fourSessions "s_d" svc 4) as [Hfull Hroom].
  - lia.
  - lia.
  - vm_compute. reflexivity.
  - split; [exact Hfull |]. by rewrite Hroom.
Defined.

Lemma freed_slot_goes_to_next_request_witness :
  complete fourSessions (state (exec [(fourSessions, EvEnqueue "s_a" svc 1)]
                                  (start 1 2)))
    = (mkState 1 2 0 [], []) ∧
  (enqueue fourSessions "s_b" svc 2
     (complete fourSessions
        (state (exec [(fourSessions, EvEnqueue "s_a" svc 1)] (start 1 2)))).1).1.1
    = Accepted 0.
Proof.
  destruct (freed_slot_goes_to_next_request 1 2
              [(fourSessions, EvEnqueue "s_a" svc 1)]
              fourSessions fourSessions "s_b" svc 2) as [Hdone Hnext].
  - lia.
  - vm_compute. reflexivity.
  - split; [rewrite Hdone; vm_compute; reflexivity |]. by rewrite Hnext.
Defined.

End QueueLedgerProps.

(** ** Encrypted LRU cache: the other operations *)

Module EncryptedLRUCacheUse.

Import EncryptedLRUCache EncryptedLRUCacheProps.

Lemma filter_expired_split (ttl now : Z) (m : EntryMap) :
  (length (filter (expired ttl now) m)
   + length (filter (fun kv => ¬ expired ttl now kv) m))%nat = length m.
Proof.
  unfold EntryMap in *. induction m as [| kv m IH]; [done |].
  rewrite !filter_cons. destruct (decide (expired ttl now kv)) as [He | He].
  - rewrite decide_False by (intros Hn; by apply Hn). simpl. lia.
  - rewrite decide_True by done. simpl. lia.
Qed.

Lemma filter_fresh_again (ttl now : Z) (m : EntryMap) :
  filter (expired ttl now) (filter (fun kv => ¬ expired ttl now kv) m) = [] ∧
  filter (fun kv => ¬ expired ttl now kv)
    (filter (fun kv => ¬ expired ttl now kv) m)
    = filter (fun kv => ¬ expired ttl now kv) m.
Proof.
  unfold EntryMap in *. induction m as [| kv m [IH1 IH2]]; [done |].
  rewrite !filter_cons. destruct (decide (¬ expired ttl now kv)) as [He | He].
  - rewrite !filter_cons, decide_False, decide_True by done.
    by rewrite IH1, IH2.
  - done.
Qed.

Lemma Map_get_sublist_None (key : string) (m m' : EntryMap) :
  m' `sublist_of` m -> Map_get key m = None -> Map_get key m' = None.
Proof.
  intros Hsub Hnone. apply Map_get_None. intros Hin.
  apply Map_get_None in Hnone. apply Hnone.
  apply (elem_of_sublist _ _ _ Hin). unfold keys. by apply fmap_sublist.
Qed.

Section Use.

Context {T : Type} {platform : Platform T}.

(** X7.  [has] answers like [get] without touching anything it keeps:
    it is true exactly for a stored entry whose age is at most [ttl], and
    then the cache is unchanged (no move in the order, no new
    [lastAccessedAt]); when it is false a [get] at the same time answers
    [undefined] and the key is not in the store afterwards; and whenever a
    [get] returns a value, [has] at the same time is true. *)
Theorem has_answers_like_get (key : string) (now now' : Z) (c : Cache) :
  ((has key now c).1 = true <->
     ∃ entry, Map_get key (store c) = Some entry ∧
              now - createdAt entry <= ttlMs c) ∧
  ((has key now c).1 = true -> (has key now c).2 = c) ∧
  ((has key now c).1 = false ->
     (get (platform := platform) key now now' c).1 = Return None ∧
     Map_get key (store (has key now c).2) = None) ∧
  (∀ value : T,
     (get key now now' c).1 = Return (Some value) -> (has key now c).1 = true).
Proof.
  unfold has, get.
  destruct (Map_get key (store c)) as [entry |] eqn:Hget; simpl.
  - case_decide as Hexp; simpl.
    + split; [split; [done | intros (e & [= <-] & Hage); lia] |].
      split; [done |]. split; [| done].
      intros _. split; [done | apply Map_get_delete_eq].
    + split; [split; [intros _; exists entry; split; [done | lia] | done] |].
      split; [done |]. split; [done |]. done.
  - split; [split; [done | by intros (e & He & _)] |].
    split; [done |]. split; [| done]. done.
Qed.

(** X8.  [delete] reports whether the key was stored, leaves no entry of
    the key behind, keeps every other key as it was, and a [get] of the
    deleted key afterwards is a plain miss. *)
Theorem delete_removes_only_its_key (key : string) (c : Cache) :
  ((delete key c).1 = true <-> key ∈ keys (store c)) ∧
  Map_get key (store (delete key c).2) = None ∧
  (∀ other, other ≠ key ->
     Map_get other (store (delete key c).2) = Map_get other (store c)) ∧
  (∀ now now',
     get (platform := platform) key now now' (delete key c).2
       = (Return None, (delete key c).2)).
Proof.
  unfold delete. simpl. split; [| split; [| split]].
  - unfold Map_has. pose proof (Map_get_None key (store c)) as Hnone.
    destruct (Map_get key (store c)) as [entry |].
    + split; [intros _ | done].
      destruct (decide (key ∈ keys (store c))) as [Hin | Hout]; [done |].
      by apply Hnone in Hout.
    + split; [done |]. intros Hin. exfalso. by apply (proj1 Hnone).
  - apply Map_get_delete_eq.
  - intros other Hne. by apply Map_get_delete_ne.
  - intros now now'. unfold get. simpl. by rewrite Map_get_delete_eq.
Qed.

(** X9.  [prune] returns the number of entries it removed; what is left
    are exactly the entries whose age at [now] is at most [ttl], in their
    old order; and pruning again at the same time removes nothing. *)
Theorem prune_removes_exactly_the_expired (now : Z) (c : Cache) :
  (prune now c).1 = size c - size (prune now c).2 ∧
  store (prune now c).2 `sublist_of` store c ∧
  (∀ kv, kv ∈ store (prune now c).2 <->
         kv ∈ store c ∧ now - createdAt kv.2 <= ttlMs c) ∧
  prune now (prune now c).2 = (0, (prune now c).2).
Proof.
  unfold prune, size. simpl. split; [| split; [| split]].
  - pose proof (filter_expired_split (ttlMs c) now (store c)). lia.
  - apply sublist_filter.
  - intros kv. rewrite list_elem_of_filter. unfold expired. split.
    + intros [Hage Hin]. split; [done | lia].
    + intros [Hin Hage]. split; [lia | done].
  - destruct (filter_fresh_again (ttlMs c) now (store c)) as [-> ->]. done.
Qed.

(** X10.  Reading one key never disturbs another: after [get] or [has] of
    [key], whatever they answer, every other key has the entry it had
    before. *)
Theorem reads_leave_other_keys_alone
    (key other : string) (now now' : Z) (c : Cache) :
  other ≠ key ->
  Map_get other (store (get (platform := platform) key now now' c).2)
    = Map_get other (store c) ∧
  Map_get other (store (has key now c).2) = Map_get other (store c).
Proof.
  intros Hne. unfold get, has.
  destruct (Map_get key (store c)) as [entry |]; [| done].
  case_decide; simpl; [by rewrite Map_get_delete_ne |].
  split; [| done].
  destruct (andThen _ _); simpl.
  - by rewrite Map_get_set_ne, Map_get_delete_ne.
  - by rewrite Map_get_delete_ne, Map_get_set_ne, Map_get_delete_ne.
Qed.

(** X11.  [set] evicts only when the key is new and the store is full:
    if the key is already stored (in a store within its limit) or there is
    still room, the call returns and every other key keeps its entry. *)
Theorem set_with_room_keeps_other_keys
    (key : string) (value : T) (nonce : Buffer) (now : Z) (c : Cache) :
  (size c < maxSize c ∨
   (size c <= maxSize c ∧ Map_get key (store c) ≠ None)) ->
  ∃ r c',
    set key value nonce now c = Some (r, c') ∧
    ∀ other, other ≠ key ->
      Map_get other (store c') = Map_get other (store c).
Proof.
  unfold size. intros Hroom.
  assert (Hless : Z.of_nat (length (Map_delete key (store c))) < maxSize c).
  { destruct Hroom as [Hlt | [Hle Hin]].
    - pose proof (sublist_length _ _ (Map_delete_sublist key (store c))). lia.
    - destruct (Map_get key (store c)) as [entry |] eqn:Hget; [| done].
      pose proof (Map_delete_present_length _ _ _ Hget). lia. }
  unfold set. rewrite (evict_room _ _ Hless).
  destruct (JSON_stringify value) as [text | err].
  - destruct (encrypt (encryptKey c) nonce text) as [[ct ivHex] tag].
    eexists _, _. split; [done |]. intros other Hne. simpl.
    by rewrite Map_get_set_ne, Map_get_delete_ne.
  - eexists _, _. split; [done |]. intros other Hne. simpl.
    by rewrite Map_get_delete_ne.
Qed.

(** X12.  After a [set] that returned, [has] of the same key is true
    exactly as long as the age of the entry is at most [ttl]: true at
    [t0 + ttl], false one millisecond later. *)
Theorem set_then_has_until_ttl
    (key : string) (value : T) (nonce : Buffer) (t0 t : Z) (c c1 : Cache) :
  set key value nonce t0 c = Some (Return (), c1) ->
  ((has key t c1).1 = true <-> t - t0 <= ttlMs c).
Proof.
  intros Hset.
  destruct (set_stored _ _ _ _ _ _ Hset) as (m & text & _ & _ & ->).
  unfold has. simpl. rewrite Map_get_set_eq. simpl.
  case_decide; simpl; split; (done || lia).
Qed.

(** X13.  Only [set] adds keys: after any other operation the keys of the
    store are among the keys it had before, and there are no more entries
    than before. *)
Theorem only_set_adds_keys (op : Op) (c c' : Cache) :
  (∀ key value nonce now, op ≠ OpSet key value nonce now) ->
  apply (platform := platform) op c = Some c' ->
  keys (store c') ⊆ keys (store c) ∧ size c' <= size c.
Proof.
  intros Hread Hop. unfold size.
  destruct (apply_StoreChange op c c' Hop)
    as [op m' Hsub | k value nonce now m' entry Hsub Hc Ha
        | k now now' entry entry' Hget Hc Ha].
  - split.
    + apply sublist_subseteq. unfold keys. by apply fmap_sublist.
    + apply sublist_length in Hsub. lia.
  - by destruct (Hread k value nonce now).
  - split.
    + unfold keys. rewrite fmap_app. simpl. intros x [Hin | Hin]%elem_of_app.
      * eapply elem_of_sublist; [exact Hin |].
        apply fmap_sublist, Map_delete_sublist.
      * apply list_elem_of_singleton in Hin. subst x.
        apply Map_get_elem_of in Hget.
        by apply (list_elem_of_fmap_2 fst) in Hget.
    + rewrite length_app. simpl.
      pose proof (Map_delete_present_length _ _ _ Hget). lia.
Qed.

(** X14.  A [set] whose value cannot be serialized throws, and by then the
    old entry of the key is already deleted: the key is not in the store
    afterwards, whatever it held before, and the store is below its
    limit. *)
Theorem failed_set_drops_the_old_entry
    (key : string) (value : T) (nonce : Buffer) (now : Z) (c : Cache)
    (err : string) :
  1 <= maxSize c ->
  JSON_stringify value = Throw err ->
  ∃ c',
    set key value nonce now c = Some (Throw err, c') ∧
    Map_get key (store c') = None ∧
    size c' < maxSize c.
Proof.
  intros Hpos Hthrow. unfold set, size.
  destruct (evict_terminates (maxSize c) (Map_delete key (store c)) Hpos)
    as [m Hev].
  rewrite Hev, Hthrow. eexists. split; [done |]. simpl. split.
  - eapply Map_get_sublist_None; [by eapply evict_sublist |].
    apply Map_get_delete_eq.
  - by eapply evict_below_limit.
Qed.

(** X23.  Whatever is stored, [get] returns normally.  When the
    decryption or the parse of a stored entry throws, [get] answers
    [undefined] and the entry is gone afterwards; for a stored ciphertext
    that is the sealed form of some plaintext this is the case whenever the
    stored tag is neither the tag sealed with it nor a cut of that tag to
    an accepted length.  A value that [get] does return is the parse of a
    plaintext that the decipher opened for the stored entry. *)
Theorem failed_decrypt_is_a_miss (key : string) (now now' : Z) (c : Cache) :
  (∃ r c', get (platform := platform) key now now' c = (Return r, c')) ∧
  (∀ entry err,
     Map_get key (store c) = Some entry ->
     (plaintext <- decrypt (encryptKey c) (ciphertext entry) (iv entry)
                     (authTag entry) ;;
      JSON_parse plaintext) = Throw err ->
     ∃ c', get (platform := platform) key now now' c = (Return None, c') ∧
           Map_get key (store c') = None) ∧
  (open_only_cut_of_genuine ->
   ∀ entry plaintext fullTag,
     Map_get key (store c) = Some entry ->
     aes256gcm_seal (encryptKey c) (fromHex (iv entry)) plaintext
       = (fromHex (ciphertext entry), fullTag) ->
     (∀ n, acceptedTagLength n = true ->
           fromHex (authTag entry) ≠ take n fullTag) ->
     ∃ c', get (platform := platform) key now now' c = (Return None, c') ∧
           Map_get key (store c') = None) ∧
  (∀ (value : T) c',
     get key now now' c = (Return (Some value), c') ->
     ∃ entry plaintext,
       Map_get key (store c) = Some entry ∧
       aes256gcm_open (encryptKey c) (fromHex (iv entry))
         (fromHex (authTag entry)) (fromHex (ciphertext entry))
         = Return plaintext ∧
       JSON_parse plaintext = Return value).
Proof.
  assert (Hthrow : ∀ entry err,
     Map_get key (store c) = Some entry ->
     (plaintext <- decrypt (encryptKey c) (ciphertext entry) (iv entry)
                     (authTag entry) ;;
      JSON_parse plaintext) = Throw err ->
     ∃ c', get (platform := platform) key now now' c = (Return None, c') ∧
           Map_get key (store c') = None).
  { intros entry err Hget Hfail. unfold get. rewrite Hget.
    case_decide.
    - eexists. split; [reflexivity |]. simpl. apply Map_get_delete_eq.
    - simpl. rewrite Hfail.
      eexists. split; [reflexivity |]. simpl. apply Map_get_delete_eq. }
  split; [apply get_returns |]. split; [exact Hthrow |]. split.
  - intros Hauth entry plaintext fullTag Hget Hsealed Hother.
    destruct (decrypt (encryptKey c) (ciphertext entry) (iv entry)
                (authTag entry)) as [opened | err] eqn:Hdec.
    + exfalso. unfold decrypt in Hdec.
      destruct (Hauth _ _ _ _ _ _ _ Hsealed Hdec) as (n & Haccepted & Hcut).
      by apply (Hother n).
    + apply (Hthrow entry err Hget). by rewrite Hdec.
  - intros value c'. unfold get.
    destruct (Map_get key (store c)) as [entry |]; [| done].
    case_decide; [done |]. simpl.
    destruct (decrypt (encryptKey c) (ciphertext entry) (iv entry)
                (authTag entry)) as [plaintext | err] eqn:Hdec; simpl; [| done].
    destruct (JSON_parse plaintext) as [v | err] eqn:Hparse; [| done].
    intros [= -> _]. by exists entry, plaintext.
Qed.

End Use.

(** *** On the plain platform *)

Lemma has_answers_like_get_witness :
  (has "ou_1" 1010 plainStored).1 = true ∧
  (has "ou_1" 1010 plainStored).2 = plainStored.
Proof.
  assert (Hyes : (has "ou_1" 1010 plainStored).1 = true)
    by (vm_compute; reflexivity).
  split; [exact Hyes |].
  exact (proj1 (proj2 (has_answers_like_get (platform := plainPlatform)
                         "ou_1" 1010 1011 plainStored)) Hyes).
Defined.

Lemma reads_leave_other_keys_alone_witness :
  Map_get "ou_1"
    (store (get (platform := plainPlatform) "ou_2" 20 21 plainStored).2)
    = Map_get "ou_1" (store plainStored).
Proof.
  apply (reads_leave_other_keys_alone (platform := plainPlatform)
           "ou_2" "ou_1" 20 21 plainStored).
  discriminate.
Defined.

Lemma set_with_room_keeps_other_keys_witness :
  ∃ r c',
    set (platform := plainPlatform) "ou_2" "sk-BBB" plainNonce 20 plainStored
      = Some (r, c') ∧
    ∀ other, other ≠ "ou_2" ->
      Map_get other (store c') = Map_get other (store plainStored).
Proof.
  apply (set_with_room_keeps_other_keys (platform := plainPlatform)
           "ou_2" "sk-BBB" plainNonce 20 plainStored).
  left. vm_compute. reflexivity.
Defined.

Lemma set_then_has_until_ttl_witness :
  (has "ou_1" 1010 plainStored).1 = true <-> 1010 - 10 <= 1000.
Proof.
  apply (set_then_has_until_ttl (platform := plainPlatform)
           "ou_1" "sk-AAA" plainNonce 10 1010
           (new (platform := plainPlatform) plainOptions) plainStored).
  vm_compute. reflexivity.
Defined.

Lemma only_set_adds_keys_witness :
  keys (store (get (platform := plainPlatform) "ou_1" 2000 2001 plainStored).2)
    ⊆ keys (store plainStored) ∧
  size (get (platform := plainPlatform) "ou_1" 2000 2001 plainStored).2
    <= size plainStored.
Proof.
  apply (only_set_adds_keys (platform := plainPlatform)
           (OpGet "ou_1" 2000 2001) plainStored).
  - discriminate.
  - reflexivity.
Defined.

Lemma failed_set_drops_the_old_entry_witness :
  let c := with_store (new (platform := OptionalValues.optionalPlatform)
                         plainOptions) (store plainStored) in
  Map_get "ou_1" (store c) ≠ None ∧
  ∃ c',
    set (platform := OptionalValues.optionalPlatform) "ou_1" None plainNonce 20 c
      = Some (Throw "The 'data' argument must be of type string", c') ∧
    Map_get "ou_1" (store c') = None ∧
    size c' < maxSize c.
Proof.
  intros c. split; [vm_compute; discriminate |].
  apply (failed_set_drops_the_old_entry
           (platform := OptionalValues.optionalPlatform)
           "ou_1" None plainNonce 20 c).
  - vm_compute. discriminate.
  - reflexivity.
Defined.

Lemma failed_decrypt_is_a_miss_witness :
  ∃ c', get (platform := plainPlatform) "ou_1" 20 21 plainTampered
          = (Return None, c') ∧
        Map_get "ou_1" (store c') = None.
Proof.
  apply (proj1 (proj2 (proj2
           (failed_decrypt_is_a_miss (platform := plainPlatform)
              "ou_1" 20 21 plainTampered)))
           plain_open_only_cut_of_genuine
           {| ciphertext := "sk-AAA"; iv := "0123456789abcdef";
              authTag := "forged"; createdAt := 10; lastAccessedAt := 10 |}
           "sk-AAA" (String.list_byte_of_string "sk-AAA0123456789")).
  - reflexivity.
  - reflexivity.
  - intros n _ Hcut. apply (f_equal (take 1)) in Hcut.
    rewrite take_take in Hcut. destruct n as [| n]; [done |].
    rewrite Nat.min_l in Hcut by lia. vm_compute in Hcut. discriminate.
Defined.

End EncryptedLRUCacheUse.

(** ** Session store: creation, sweep, and how they combine with update *)

Module SessionManagerUse.

Import SessionManager.

Lemma Object_assign_twice (session : Session) (updates : SessionUpdates) :
  Object_assign (Object_assign session updates) updates
    = Object_assign session updates.
Proof.
  destruct session, updates. unfold Object_assign. simpl.
  f_equal; match goal with |- assign_prop ?u _ = _ => by destruct u end.
Qed.

(** X15.  A session made by [create] is stored under its new id with
    status [waiting_confirm], no card, no API key and the creation time
    [now], and can be read back with [get]; the sessions stored under other
    ids are as they were (a session already stored under the new id is
    replaced). *)
Theorem created_session_is_stored
    (newId : string) (now : Z) (params : CreateParams) (sessions : Sessions) :
  let session := (create newId now params sessions).1 in
  let sessions' := (create newId now params sessions).2 in
  get newId sessions' = Some session ∧
  id session = newId ∧
  status session = waiting_confirm ∧
  cardMessageId session = None ∧
  apiKey session = None ∧
  createdAt session = now ∧
  textContent session = p_textContent params ∧
  (∀ other, other ≠ newId -> get other sessions' = get other sessions).
Proof.
  unfold create, get. simpl. split; [apply lookup_insert_eq |].
  repeat split. intros other Hne. by apply lookup_insert_ne.
Qed.

(** X16.  The sweep keeps exactly the sessions that are at most 30 minutes
    old, unchanged: a session is found after [cleanup] at [now] if and
    only if it was stored before and [now - createdAt] is at most
    1 800 000 ms; a session of exactly that age stays. *)
Theorem cleanup_keeps_exactly_the_young
    (now : Z) (sid : string) (session : Session) (sessions : Sessions) :
  get sid (cleanup now sessions) = Some session <->
  get sid sessions = Some session ∧ now - createdAt session <= 1800000.
Proof.
  unfold get, cleanup, ttlMs. rewrite map_lookup_filter_Some. simpl.
  split; intros [Hget Hage]; (split; [done | lia]).
Qed.

(** X17.  An update never extends the life of a session: sweeping after
    an update leaves the same store as updating after the sweep; and an
    update of a session that the sweep has removed returns [undefined]
    and changes nothing. *)
Theorem update_does_not_extend_life
    (now : Z) (sid : string) (updates : SessionUpdates) (sessions : Sessions) :
  cleanup now (update sid updates sessions).2
    = (update sid updates (cleanup now sessions)).2 ∧
  (∀ session,
     get sid sessions = Some session ->
     now - createdAt session > 1800000 ->
     update sid updates (cleanup now sessions)
       = (None, cleanup now sessions)).
Proof.
  unfold update, cleanup, get, ttlMs. split.
  - destruct (sessions !! sid) as [session |] eqn:Hget.
    + simpl. rewrite map_filter_insert. simpl.
      destruct (decide (¬ now - createdAt session > 30 * 60 * 1000))
        as [Hyoung | Hold].
      * rewrite (map_lookup_filter_Some_2 _ _ _ _ Hget) by done. done.
      * rewrite map_filter_delete.
        assert (Hgone : filter
                  (fun kv : string * Session =>
                     ¬ now - createdAt kv.2 > 30 * 60 * 1000) sessions
                  !! sid = None).
        { apply map_lookup_filter_None. right. intros x Hx.
          rewrite Hget in Hx. by injection Hx as <-. }
        rewrite Hgone. simpl. by apply delete_id.
    + simpl.
      assert (Hgone : filter
                (fun kv : string * Session =>
                   ¬ now - createdAt kv.2 > 30 * 60 * 1000) sessions
                !! sid = None).
      { apply map_lookup_filter_None. by left. }
      by rewrite Hgone.
  - intros session Hget Hold.
    assert (Hgone : filter
              (fun kv : string * Session =>
                 ¬ now - createdAt kv.2 > 30 * 60 * 1000) sessions
              !! sid = None).
    { apply map_lookup_filter_None. right. intros x Hx.
      rewrite Hget in Hx. injection Hx as <-. simpl. lia. }
    by rewrite Hgone.
Qed.

(** X18.  Applying the same update twice is the same as applying it once:
    the second call returns the same session and leaves the same store. *)
Theorem update_twice_is_update_once
    (sid : string) (updates : SessionUpdates) (sessions : Sessions) :
  update sid updates (update sid updates sessions).2
    = update sid updates sessions.
Proof.
  unfold update. destruct (sessions !! sid) as [session |] eqn:Hget; simpl.
  - rewrite lookup_insert_eq. simpl.
    by rewrite Object_assign_twice, insert_insert_eq.
  - by rewrite Hget.
Qed.

Lemma update_does_not_extend_life_witness :
  update "s_1" demoUpdates (cleanup 1801001 {[ "s_1" := demoSession ]})
    = (None, cleanup 1801001 {[ "s_1" := demoSession ]}).
Proof.
  apply (proj2 (update_does_not_extend_life 1801001 "s_1" demoUpdates
                  {[ "s_1" := demoSession ]}) demoSession).
  - apply lookup_singleton_eq.
  - simpl. lia.
Defined.

End SessionManagerUse.

(** ** The callers *)

Module CallersProps.

Import SessionManager GenerationQueue QueueLedger JsText ApiKeyCacheService
  CardActionService MessageHandler.

(** *** Masking and cleaning of API keys *)

(** X19.  The masked form of a key shows its first four and last four
    units and nothing of what lies between: two keys with the same ends
    give the same text, whatever their (non-empty) middles are; and of a
    key of at most eight units nothing is shown at all.  The masking in
    the log line of the card action is the same function. *)
Theorem maskKey_hides_the_middle
    (front middle middle' back key : list N) :
  length front = 4%nat ->
  length back = 4%nat ->
  middle ≠ [] ->
  middle' ≠ [] ->
  maskKey (front ++ middle ++ back) = front ++ stars ++ back ∧
  maskKey (front ++ middle' ++ back) = maskKey (front ++ middle ++ back) ∧
  ((length key <= 8)%nat -> maskKey key = stars) ∧
  masked key = maskKey key.
Proof.
  intros Hfront Hback Hmid Hmid'.
  assert (Hgen : ∀ m : list N, m ≠ [] ->
            maskKey (front ++ m ++ back) = front ++ stars ++ back).
  { intros m Hm. unfold maskKey.
    assert (0 < length m)%nat by (destruct m; [done | simpl; lia]).
    rewrite decide_False by (rewrite !length_app; lia).
    rewrite take_app_length' by done.
    rewrite (app_assoc front m back), drop_app_length'
      by (rewrite !length_app; lia).
    done. }
  split; [by apply Hgen |]. split; [by rewrite !Hgen |]. split.
  - intros Hshort. unfold maskKey. by rewrite decide_True.
  - unfold masked, maskKey. repeat case_decide; (done || lia).
Qed.

Lemma dropWhile_head (f : N -> bool) (l : list N) (u : N) :
  head (dropWhile f l) = Some u -> f u = false.
Proof.
  induction l as [| x l IH]; simpl; [done |].
  destruct (f x) eqn:Hx; [done |]. simpl. by intros [= <-].
Qed.

Lemma dropWhile_split (f : N -> bool) (l : list N) :
  ∃ front, l = front ++ dropWhile f l ∧ Forall (fun u => f u = true) front.
Proof.
  induction l as [| x l (front & Heq & Hall)]; simpl; [by exists [] |].
  destruct (f x) eqn:Hx.
  - exists (x :: front). split; [simpl; by f_equal | by constructor].
  - by exists [].
Qed.

Lemma dropWhile_clean (f : N -> bool) (l : list N) :
  (∀ u, head l = Some u -> f u = false) -> dropWhile f l = l.
Proof.
  destruct l as [| x l]; simpl; [done |].
  intros Hhead. by rewrite (Hhead x).
Qed.

Lemma dropWhileEnd_split (f : N -> bool) (l : list N) :
  ∃ back, l = dropWhileEnd f l ++ back ∧ Forall (fun u => f u = true) back.
Proof.
  induction l as [| x l (back & Heq & Hall)]; simpl; [by exists [] |].
  destruct (dropWhileEnd f l) as [| y kept] eqn:Hend.
  - destruct (f x) eqn:Hx.
    + exists (x :: back). simpl in Heq. subst l. split; [done | by constructor].
    + exists back. simpl in *. by subst l.
  - exists back. simpl. by rewrite Heq at 1.
Qed.

Lemma dropWhileEnd_last (f : N -> bool) (l : list N) (u : N) :
  last (dropWhileEnd f l) = Some u -> f u = false.
Proof.
  induction l as [| x l IH]; simpl; [done |].
  destruct (dropWhileEnd f l) as [| y kept] eqn:Hend.
  - destruct (f x) eqn:Hx; [done |]. simpl. by intros [= <-].
  - rewrite last_cons. destruct (last (y :: kept)) as [z |] eqn:Hlast.
    + intros [= <-]. by apply IH.
    + by rewrite last_cons in Hlast; destruct (last kept).
Qed.

Lemma dropWhileEnd_head (f : N -> bool) (l : list N) (u : N) :
  head (dropWhileEnd f l) = Some u -> head l = Some u.
Proof.
  destruct l as [| x l]; simpl; [done |].
  destruct (dropWhileEnd f l); [by destruct (f x) | done].
Qed.

Lemma dropWhileEnd_clean (f : N -> bool) (l : list N) :
  (∀ u, last l = Some u -> f u = false) -> dropWhileEnd f l = l.
Proof.
  induction l as [| x l IH]; simpl; [done |].
  intros Hlast. destruct l as [| y l].
  - simpl. by rewrite (Hlast x).
  - rewrite IH; [done |]. intros u Hu. apply Hlast.
    by rewrite last_cons, Hu.
Qed.

(** X20.  The cleaned key is the typed key without a run of white space
    and quotes in front and a run of white space, quotes, commas and
    semicolons at the end: it does not start with a unit of the first
    class nor end with one of the second, and cleaning it again changes
    nothing. *)
Theorem cleanApiKey_strips_both_ends (raw : list N) :
  (∃ front back,
     raw = front ++ cleanApiKey raw ++ back ∧
     Forall (fun u => strippedInFront u = true) front ∧
     Forall (fun u => strippedAtEnd u = true) back) ∧
  (∀ u, head (cleanApiKey raw) = Some u -> strippedInFront u = false) ∧
  (∀ u, last (cleanApiKey raw) = Some u -> strippedAtEnd u = false) ∧
  cleanApiKey (cleanApiKey raw) = cleanApiKey raw.
Proof.
  unfold cleanApiKey.
  assert (Hhead : ∀ u,
    head (dropWhileEnd strippedAtEnd (dropWhile strippedInFront raw)) = Some u ->
    strippedInFront u = false).
  { intros u Hu. apply dropWhileEnd_head in Hu. by eapply dropWhile_head. }
  split; [| split; [exact Hhead | split]].
  - destruct (dropWhile_split strippedInFront raw) as (front & Hfront & Hall).
    destruct (dropWhileEnd_split strippedAtEnd (dropWhile strippedInFront raw))
      as (back & Hback & Hall').
    exists front, back. split; [| done]. by rewrite <- Hback.
  - apply dropWhileEnd_last.
  - rewrite (dropWhile_clean strippedInFront _ Hhead).
    apply dropWhileEnd_clean. apply dropWhileEnd_last.
Qed.

(** *** The card that answers a form *)

(** X21.  The card returned after a form is submitted tells what happened
    to the request.  A queue card always shows the user at the end of the
    line: its position equals its total, the length of the wait list, on
    which the request is the last item.  A progress card means the job was
    handed to the executor and nobody waits.  The queue-full card means
    nothing changed, and shows the limit of the queue. *)
Theorem submit_reply_tells_the_outcome
    (sessions : Sessions) (sid : string) (svc : ImageGenerationService)
    (now : Z) (summary : string) (q : State) :
  let reply := (submit sessions sid svc now summary q).1.1 in
  let q' := (submit sessions sid svc now summary q).1.2 in
  let effects := (submit sessions sid svc now summary q).2 in
  (∀ s position total,
     reply = ReplyCard (QueueCard s position total) ->
     position = total ∧ total = Z.of_nat (length (waiting q')) ∧
     1 <= position ∧ last (waiting q') = Some (mkItem sid svc now) ∧
     running q' = running q ∧ effects = []) ∧
  (∀ s,
     reply = ReplyCard (ProgressCard s) ->
     Execute sid svc ∈ effects ∧ waiting q' = [] ∧
     running q' = running q + 1) ∧
  (∀ s limit,
     reply = ReplyQueueFull s limit ->
     q' = q ∧ effects = [] ∧ limit = maxQueueLength q ∧
     Z.of_nat (length (waiting q)) >= limit).
Proof.
  unfold submit, enqueue, run.
  destruct (decide (running q < maxConcurrency q ∧ length (waiting q) = 0%nat))
    as [[Hlt Hempty] | Hbusy].
  - simpl. split; [done |]. split; [| done]. intros s _.
    split; [apply elem_of_app; right; apply list_elem_of_here |].
    split; [by apply length_zero_iff_nil | done].
  - destruct (decide (Z.of_nat (length (waiting q)) >= maxQueueLength q))
      as [Hfull | Hroom]; simpl.
    + split; [done |]. split; [done |]. by intros s limit [= _ <-].
    + case_decide as Hpos; simpl.
      * split; [| done]. intros s position total [= _ <- <-].
        rewrite last_snoc. repeat split; lia.
      * rewrite length_app in Hpos. simpl in Hpos. lia.
Qed.

(** *** The memory of handled messages *)

Lemma dropped_Z : Z.of_nat dropped = 5000.
Proof. unfold dropped. lia. Qed.

Lemma Set_delete_absent (id : string) (members : list string) :
  id ∉ members -> Set_delete id members = members.
Proof.
  unfold Set_delete. induction members as [| x members IH]; [done |].
  intros [Hne Hout]%not_elem_of_cons. rewrite filter_cons.
  rewrite decide_True by done. by rewrite IH.
Qed.

(** In a set, deleting the first members one by one leaves the others. *)
Lemma delete_first_members (first others : list string) :
  NoDup (first ++ others) ->
  foldl (fun kept id => Set_delete id kept) (first ++ others) first = others.
Proof.
  induction first as [| x first IH]; simpl; [done |].
  intros [Hout Hnodup]%NoDup_cons. unfold Set_delete at 2.
  rewrite filter_cons, decide_False by (intros Hne; by apply Hne).
  fold (Set_delete x (first ++ others)).
  rewrite Set_delete_absent by done. by apply IH.
Qed.

Lemma pruneProcessedMessages_drop (members : list string) :
  NoDup members ->
  pruneProcessedMessages members =
    if decide (Z.of_nat (length members) > 10000) then drop dropped members
    else members.
Proof.
  intros Hnodup. unfold pruneProcessedMessages. case_decide; [| done].
  rewrite <- (take_drop dropped members) at 1.
  apply delete_first_members. by rewrite take_drop.
Qed.

(** The set stays a set of at most 10 000 members, and a member with at
    most [k] members after it keeps its place near the end for as long as
    [k] stays at most 5000. *)
Lemma seen_keeps_recent (id x : string) (members : list string) (k : Z) :
  NoDup members ->
  Z.of_nat (length members) <= 10000 ->
  (∃ older newer, members = older ++ id :: newer ∧ Z.of_nat (length newer) <= k) ->
  k + 1 <= 5000 ->
  NoDup (seen x members).2 ∧
  Z.of_nat (length (seen x members).2) <= 10000 ∧
  ∃ older newer,
    (seen x members).2 = older ++ id :: newer ∧
    Z.of_nat (length newer) <= k + 1.
Proof.
  intros Hnodup Hlen (older & newer & Heq & Hk) Hwindow. unfold seen, Set_has.
  case_bool_decide as Hin; simpl.
  - split; [done |]. split; [done |]. exists older, newer. split; [done | lia].
  - unfold Set_add. rewrite decide_False by done.
    assert (Hnodup' : NoDup (members ++ [x])).
    { apply NoDup_app. split; [done |]. split; [| apply NoDup_singleton].
      intros y Hy Hx. apply list_elem_of_singleton in Hx. by subst y. }
    rewrite pruneProcessedMessages_drop by done.
    rewrite length_app. simpl. case_decide as Hbig.
    + split; [eapply sublist_NoDup; [exact Hnodup' | apply sublist_drop] |].
      pose proof dropped_Z as Hd.
      split; [rewrite length_drop, length_app; simpl; lia |].
      exists (drop dropped older), (newer ++ [x]).
      split; [| rewrite length_app; simpl; lia].
      subst members. rewrite <- app_assoc. simpl.
      rewrite length_app in Hlen, Hbig. simpl in Hlen, Hbig.
      rewrite drop_app_le by lia. done.
    + split; [done |]. split; [rewrite length_app; simpl; lia |].
      exists older, (newer ++ [x]). subst members.
      split; [by rewrite <- app_assoc | rewrite length_app; simpl; lia].
Qed.

Lemma feed_keeps_set (ids : list string) :
  ∀ members,
    NoDup members -> Z.of_nat (length members) <= 10000 ->
    NoDup (feed ids members) ∧ Z.of_nat (length (feed ids members)) <= 10000.
Proof.
  induction ids as [| x ids IH]; intros members Hnodup Hlen; simpl; [done |].
  apply IH; unfold seen, Set_has; case_bool_decide as Hin; simpl; try done.
  - unfold Set_add. rewrite decide_False by done.
    assert (Hnodup' : NoDup (members ++ [x])).
    { apply NoDup_app. split; [done |]. split; [| apply NoDup_singleton].
      intros y Hy Hx. apply list_elem_of_singleton in Hx. by subst y. }
    rewrite pruneProcessedMessages_drop by done. case_decide; [| done].
    eapply sublist_NoDup; [exact Hnodup' | apply sublist_drop].
  - unfold Set_add. rewrite decide_False by done.
    assert (Hnodup' : NoDup (members ++ [x])).
    { apply NoDup_app. split; [done |]. split; [| apply NoDup_singleton].
      intros y Hy Hx. apply list_elem_of_singleton in Hx. by subst y. }
    rewrite pruneProcessedMessages_drop by done.
    pose proof dropped_Z. rewrite length_app. simpl.
    case_decide;
      [rewrite length_drop, length_app | rewrite length_app]; simpl; lia.
Qed.

Lemma feed_keeps_recent (id : string) (later : list string) :
  ∀ (members : list string) (k : Z),
    NoDup members ->
    Z.of_nat (length members) <= 10000 ->
    (∃ older newer,
       members = older ++ id :: newer ∧ Z.of_nat (length newer) <= k) ->
    k + Z.of_nat (length later) <= 5000 ->
    id ∈ feed later members.
Proof.
  induction later as [| x later IH]; intros members k Hnodup Hlen Hplace Hk.
  - simpl. destruct Hplace as (older & newer & -> & _).
    apply elem_of_app. right. apply list_elem_of_here.
  - simpl feed. simpl length in Hk.
    destruct (seen_keeps_recent id x members k Hnodup Hlen Hplace)
      as (Hnodup' & Hlen' & Hplace'); [lia |].
    apply (IH _ (k + 1) Hnodup' Hlen' Hplace'). lia.
Qed.

(** X22.  Handling messages from the start of the process, the set of
    handled message ids never holds an id twice nor more than 10 000 ids;
    and a message handled for the first time is recognised as a duplicate
    (the handler returns at once) if it arrives again after at most 5000
    other messages. *)
Theorem duplicate_recognised_within_5000_messages
    (ids later : list string) (id : string) :
  (seen id (feed ids [])).1 = false ->
  Z.of_nat (length later) <= 5000 ->
  let members := feed later (seen id (feed ids [])).2 in
  (seen id members).1 = true ∧
  NoDup members ∧
  Z.of_nat (length members) <= 10000.
Proof.
  intros Hnew Hlater members.
  destruct (feed_keeps_set ids []) as [Hnodup Hlen];
    [apply NoDup_nil_2 | simpl; lia |].
  destruct (feed_keeps_set [id] (feed ids []) Hnodup Hlen) as [Hnodup1 Hlen1].
  simpl in Hnodup1, Hlen1.
  destruct (feed_keeps_set later _ Hnodup1 Hlen1) as [Hnodup2 Hlen2].
  split; [| done].
  unfold seen at 1, Set_has. rewrite bool_decide_eq_true_2; [done |].
  apply (feed_keeps_recent id later _ 0 Hnodup1 Hlen1); [| lia].
  revert Hnew. unfold seen, Set_has. case_bool_decide as Hin; [done |].
  intros _. simpl. unfold Set_add. rewrite decide_False by done.
  assert (Hnodup' : NoDup (feed ids [] ++ [id])).
  { apply NoDup_app. split; [done |]. split; [| apply NoDup_singleton].
    intros y Hy Hx. apply list_elem_of_singleton in Hx. by subst y. }
  rewrite pruneProcessedMessages_drop by done. pose proof dropped_Z as Hd.
  case_decide as Hbig.
  - exists (drop dropped (feed ids [])), []. split; [| simpl; lia].
    rewrite length_app in Hbig. simpl in Hbig.
    rewrite drop_app_le by lia. done.
  - exists (feed ids []), []. split; [done | simpl; lia].
Qed.

(** *** Examples *)

Lemma maskKey_hides_the_middle_witness :
  maskKey [115; 107; 45; 49; 50; 51; 52; 53; 54; 55; 56; 57]%N
    = [115; 107; 45; 49]%N ++ stars ++ [54; 55; 56; 57]%N ∧
  maskKey [115; 107; 45; 49; 48; 54; 55; 56; 57]%N
    = maskKey [115; 107; 45; 49; 50; 51; 52; 53; 54; 55; 56; 57]%N.
Proof.
  destruct (maskKey_hides_the_middle [115; 107; 45; 49]%N [50; 51; 52; 53]%N
              [48]%N [54; 55; 56; 57]%N []) as (Hlong & Hsame & _).
  - reflexivity.
  - reflexivity.
  - discriminate.
  - discriminate.
  - split; [exact Hlong | exact Hsame].
Defined.

Lemma duplicate_recognised_within_5000_messages_witness :
  (seen "om_1" (feed ["om_2"; "om_3"]
                  (seen "om_1" (feed ["om_0"] [])).2)).1 = true.
Proof.
  apply (duplicate_recognised_within_5000_messages ["om_0"] ["om_2"; "om_3"]
           "om_1").
  - vm_compute. reflexivity.
  - simpl. lia.
Defined.

End CallersProps.
